(** * otf2clm: the OTF to CLM converter of MicroTeX (prebuilt/otf2clm.py)

    A shallow embedding of the converter's data transformation and binary
    encoding layer, and the properties of its specification.

    The script is Python 3 ([bytes(x, 'ascii')], shebang [python3]): [map],
    [filter] and [enumerate] build one-shot iterators, [len] is undefined
    on them, and an iterator object is always true in a condition. The
    embedding keeps these distinctions, because several encoders receive
    such iterators from the reading functions. *)

From Stdlib Require Import ZArith QArith Ascii String Lia Permutation Sorted.
From stdpp Require Import base list sorting strings gmap.

Local Open Scope Z_scope.

(** ** Exceptions and results *)

Inductive exn : Set :=
| TypeError | KeyError | IndexError | ValueError | ZeroDivisionError
| StructError | UnicodeEncodeError.

Inductive result (A : Type) : Type :=
| Ok (a : A)
| Raise (e : exn).
Arguments Ok {A} a.
Arguments Raise {A} e.

#[global] Instance result_ret : MRet result := @Ok.
#[global] Instance result_bind : MBind result := fun A B k m =>
  match m with
  | Ok a => k a
  | Raise e => Raise e
  end.

Definition is_ok {A} (r : result A) : bool :=
  match r with Ok _ => true | Raise _ => false end.

(** [for x in xs: body], where the body may raise; the accumulator stands
    for the variables the loop body updates. *)
Fixpoint for_fold {A S} (body : S → A → result S) (xs : list A) (s : S)
  : result S :=
  match xs with
  | [] => Ok s
  | x :: xs' => s' ← body s x; for_fold body xs' s'
  end.

(** Forcing a lazy [map(f, xs)]: the first element on which [f] raises
    aborts the traversal. *)
Fixpoint map_result {A B} (f : A → result B) (xs : list A) : result (list B) :=
  match xs with
  | [] => Ok []
  | x :: xs' => y ← f x; ys ← map_result f xs'; mret (y :: ys)
  end.

(** ** The output handle

    The file is opened for writing and only appended to: a computation
    is described by its result and the octets it has written, which stay
    in the file when an exception interrupts it. *)

Record W (A : Type) : Type := mkW { res : result A; out : list Z }.
Arguments mkW {A} res out.
Arguments res {A} w.
Arguments out {A} w.

#[global] Instance W_ret : MRet W := fun A a => mkW (Ok a) [].
#[global] Instance W_bind : MBind W := fun A B k m =>
  match res m with
  | Ok a => mkW (res (k a)) (out m ++ out (k a))
  | Raise e => mkW (Raise e) (out m)
  end.

Definition lift {A} (r : result A) : W A := mkW r [].

(** [f.write(bs)] *)
Definition f_write (bs : list Z) : W unit := mkW (Ok tt) bs.

(** [for x in xs: body(x)] on the output handle. *)
Definition for_each {A} (body : A → W unit) : list A → W unit :=
  fix go (xs : list A) : W unit :=
    match xs with
    | [] => mret tt
    | x :: xs' => body x;; go xs'
    end.

(** ** Python sequences and iterators

    [PySeq] is a list or a tuple: it has a length, can be traversed any
    number of times and is false when empty. [PyIter] is a [map], [filter]
    or [enumerate] object: it holds the items not produced yet, a
    traversal leaves it empty, [len] raises [TypeError] and its truth
    value is always true. *)

Inductive iterable (A : Type) : Type :=
| PySeq (xs : list A)
| PyIter (pending : list A).
Arguments PySeq {A} xs.
Arguments PyIter {A} pending.

(** A full traversal ([list(it)], [for x in it], [sorted(it)], a
    comprehension): the items, and the object afterwards. *)
Definition drain {A} (it : iterable A) : list A * iterable A :=
  match it with
  | PySeq xs => (xs, PySeq xs)
  | PyIter xs => (xs, PyIter [])
  end.

Definition py_len {A} (it : iterable A) : result Z :=
  match it with
  | PySeq xs => Ok (Z.of_nat (length xs))
  | PyIter _ => Raise TypeError
  end.

Definition truthy {A} (it : iterable A) : bool :=
  match it with
  | PySeq [] => false
  | PySeq (_ :: _) => true
  | PyIter _ => true
  end.

(** ** [struct.pack]

    All multi-octet formats of the script carry the [!] prefix: big
    endian, no padding. An integer outside the range of its format makes
    [struct.pack] raise. *)

(** The [n] low-order octets of [z], most significant first (two's
    complement for a negative [z]). *)
Fixpoint be_octets (n : nat) (z : Z) : list Z :=
  match n with
  | O => []
  | S n' => (z ≫ (8 * Z.of_nat n')) `mod` 256 :: be_octets n' z
  end.

Definition pack_int (lo hi : Z) (n : nat) (z : Z) : result (list Z) :=
  if (lo <=? z) && (z <=? hi) then Ok (be_octets n z) else Raise StructError.

Definition pack_H : Z → result (list Z) := pack_int 0 65535 2.
Definition pack_h : Z → result (list Z) := pack_int (-32768) 32767 2.
Definition pack_I : Z → result (list Z) := pack_int 0 4294967295 4.
Definition pack_i : Z → result (list Z) := pack_int (-2147483648) 2147483647 4.
Definition pack_B : Z → result (list Z) := pack_int 0 255 1.

(** [struct.pack('?', b)] *)
Definition pack_bool (b : bool) : list Z := [if b then 1 else 0].

(** [bytes(s, 'ascii')] *)
Definition bytes_ascii (s : string) : result (list Z) :=
  map_result
    (fun c => let n := Z.of_nat (nat_of_ascii c) in
              if n <? 128 then Ok n else Raise UnicodeEncodeError)
    (list_ascii_of_string s).

(** [struct.pack('c', bs)]: exactly one octet. *)
Definition pack_c (bs : list Z) : result (list Z) :=
  match bs with
  | [b] => Ok [b]
  | _ => Raise StructError
  end.

(** [f.write(struct.pack(fmt, v))] for a one-field format. *)
Definition write_packed (pack : Z → result (list Z)) (v : Z) : W unit :=
  bs ← lift (pack v); f_write bs.

(** ** [sorted(xs, key=...)]

    Python's sort is stable; the result of a stable sort is determined by
    the input, and is computed here by insertion: an item goes in front of
    the first item of the sorted rest whose key is not smaller, so that it
    stays ahead of the later items with the same key. *)

Fixpoint insert_by {A} (key : A → Z) (x : A) (l : list A) : list A :=
  match l with
  | [] => [x]
  | y :: l' => if key x <=? key y then x :: y :: l' else y :: insert_by key x l'
  end.

Definition sorted {A} (key : A → Z) (xs : list A) : list A :=
  foldr (insert_by key) [] xs.

(** [glyph_name_id_map[name]] *)
Definition name_id (glyph_name_id_map : gmap string Z) (name : string)
  : result Z :=
  match glyph_name_id_map !! name with
  | Some gid => Ok gid
  | None => Raise KeyError
  end.

(** ** Glyph outline paths

    A path command is the Python list [[x, a1, ..., an]]: the opcode, a
    string of one character, followed by its integer operands. *)

Inductive pyval : Type :=
| Str (s : string)
| Int (n : Z).

(** [x == 'M' or x == 'm' or ...] for a string [x]. *)
Definition one_of (x : string) (names : list string) : bool :=
  existsb (String.eqb x) names.

Definition val_one_of (x : pyval) (names : list string) : bool :=
  match x with
  | Str s => one_of s names
  | Int _ => false
  end.

Definition path_cmd_arg_cnt (x : string) : Z :=
  if one_of x ["M"; "m"; "L"; "l"; "T"; "t"]%string then 2
  else if one_of x ["H"; "h"; "V"; "v"]%string then 1
  else if one_of x ["C"; "c"]%string then 6
  else if one_of x ["S"; "s"; "Q"; "q"]%string then 4
  else if one_of x ["Z"; "z"]%string then -1
  else 0.

(** [c.isdigit()] on a character below U+0100: the decimal digits, and
    the superscripts U+00B2, U+00B3 and U+00B9 (which [int] rejects). *)
Definition isdigit (c : ascii) : bool :=
  let n := Z.of_nat (nat_of_ascii c) in
  ((48 <=? n) && (n <=? 57)) || (n =? 178) || (n =? 179) || (n =? 185).

Definition is_valid_digit (c : ascii) : bool :=
  Ascii.eqb c "." || Ascii.eqb c "-" || isdigit c.

Definition digit_val (c : ascii) : option Z :=
  let n := Z.of_nat (nat_of_ascii c) in
  if (48 <=? n) && (n <=? 57) then Some (n - 48) else None.

Fixpoint decimal (acc : Z) (s : list ascii) : option Z :=
  match s with
  | [] => Some acc
  | c :: s' => d ← digit_val c; decimal (10 * acc + d) s'
  end.

(** [int(tok)] on a token made of the characters [is_valid_digit]
    accepts: an optional minus sign and at least one decimal digit, and
    [ValueError] for anything else (a dot, a misplaced or lone sign). *)
Definition py_int (tok : list ascii) : result Z :=
  match tok with
  | [] => Raise ValueError
  | c :: ds =>
    if Ascii.eqb c "-" then
      match ds with
      | [] => Raise ValueError
      | _ :: _ => match decimal 0 ds with
                  | Some n => Ok (- n)
                  | None => Raise ValueError
                  end
      end
    else match decimal 0 tok with
         | Some n => Ok n
         | None => Raise ValueError
         end
  end.

(** [t[k] = -t[k]] *)
Definition neg_item (k : nat) (t : list pyval) : result (list pyval) :=
  match t !! k with
  | None => Raise IndexError
  | Some (Int n) => Ok (<[k := Int (- n)]> t)
  | Some (Str _) => Raise TypeError
  end.

Definition mirror_cmd (t : list pyval) : result (list pyval) :=
  match t !! 0%nat with
  | None => Raise IndexError
  | Some x =>
    if val_one_of x ["M"; "m"; "L"; "l"; "T"; "t"]%string then neg_item 2 t
    else if val_one_of x ["V"; "v"]%string then neg_item 1 t
    else if val_one_of x ["C"; "c"]%string then
      t1 ← neg_item 2 t; t2 ← neg_item 4 t1; neg_item 6 t2
    else if val_one_of x ["S"; "s"; "Q"; "q"]%string then
      t1 ← neg_item 2 t; neg_item 4 t1
    else Ok t
  end.

(** [mirror] updates every command of [data] in place; the commands are
    distinct objects, so the list afterwards is the list of the updated
    commands. *)
Definition mirror (data : list (list pyval)) : result (list (list pyval)) :=
  map_result mirror_cmd data.

Section read_glyph_path.
(** The [d] attribute of the first [path] element of the exported SVG. *)
Variable v : list ascii.

(** [while is_valid_digit(v[j]): j += 1], on the characters from [j]
    on; reading past the end of [v] raises. *)
Fixpoint digits_end (s : list ascii) (j : nat) : result nat :=
  match s with
  | [] => Raise IndexError
  | c :: s' => if is_valid_digit c then digits_end s' (S j) else Ok j
  end.

(** [digits(i)]: the pair [(v[i:j], j)]. *)
Definition digits (i : nat) : result (list ascii * nat) :=
  j ← digits_end (drop i v) i; mret (take (j - i) (drop i v), j).

(** [while not is_valid_digit(v[i]): i += 1] *)
Fixpoint skip_end (s : list ascii) (i : nat) : result nat :=
  match s with
  | [] => Raise IndexError
  | c :: s' => if is_valid_digit c then Ok i else skip_end s' (S i)
  end.

(** [for j in range(0, cnt)]: the operands are appended to [cmd]. *)
Fixpoint read_operands (cnt : nat) (i : nat) (cmd : list pyval)
  : result (list pyval * nat) :=
  match cnt with
  | O => Ok (cmd, i)
  | S cnt' =>
    i1 ← skip_end (drop i v) i;
    r ← digits i1;
    n ← py_int r.1;
    read_operands cnt' r.2 (cmd ++ [Int n])
  end.

(** [while i < len(v)]. Every round moves [i] forward, so [len(v)]
    rounds always suffice; [None] stands for running out of rounds. *)
Fixpoint read_cmds (rounds : nat) (i : nat) (data : list (list pyval))
  : option (result (list (list pyval))) :=
  match v !! i with
  | None => Some (Ok data)
  | Some c =>
    match rounds with
    | O => None
    | S rounds' =>
      let x := String c EmptyString in
      let cnt := path_cmd_arg_cnt x in
      if cnt =? 0 then read_cmds rounds' (S i) data
      else
        match read_operands (Z.to_nat cnt) (S i) [Str x] with
        | Raise e => Some (Raise e)
        | Ok (cmd, i') => read_cmds rounds' i' (data ++ [cmd])
        end
    end
  end.
End read_glyph_path.

(** The commands of a path description, before the mirror step. *)
Definition parse_path (v : string) : option (result (list (list pyval))) :=
  let cs := list_ascii_of_string v in
  read_cmds cs (length cs) 0 [].

(** [read_glyph_path], from the path element on: [d] is the description
    of the first path of the glyph's SVG export, if it has one. *)
Definition read_glyph_path (d : option string)
  : option (result (list (list pyval))) :=
  match d with
  | None => Some (Ok [])
  | Some v =>
    match parse_path v with
    | None => None
    | Some r => Some (data ← r; mirror data)
    end
  end.

(** ** Lazy [map] objects

    [map(f, it)] evaluates nothing when it is built. Its items are kept
    here as the deferred outcomes of [f]; an item that raises does so
    when the traversal reaches it. *)

Definition py_map {A B} (f : A → result B) (it : iterable A)
  : iterable (result B) :=
  PyIter (f <$> (drain it).1).

(** A traversal that collects every item ([sorted], a comprehension). *)
Definition force {B} (it : iterable (result B)) : result (list B) :=
  map_result id (drain it).1.

(** [enumerate(xs)] *)
Definition enumerate {A} (xs : list A) : list (Z * A) :=
  imap (fun i x => (Z.of_nat i, x)) xs.

(** [struct.pack] with a two-field format: both fields are checked
    before anything is produced. *)
Definition pack2 (p1 p2 : Z → result (list Z)) (a b : Z) : result (list Z) :=
  x ← p1 a; y ← p2 b; mret (x ++ y).

(** ** Unicode to glyph map *)

Definition write_clm_unicode_glyph_map (unicode_glyph_map : list (Z * Z))
  : W unit :=
  let length := Z.of_nat (length unicode_glyph_map) in
  write_packed pack_H length;;
  let sort_map := sorted fst unicode_glyph_map in
  for_each
    (fun '(codepoint, glyph_id) =>
       bs ← lift (pack2 pack_I pack_H codepoint glyph_id); f_write bs)
    sort_map.

(** ** Kerning pairs of a glyph *)

(** An item of [glyph.getPosSub(subtable)] for a pair positioning
    subtable, the tuple [(subtable, 'Pair', other glyph, dx1, dy1,
    dx_adv1, dy_adv1, dx2, dy2, dx_adv2, dy_adv2)]; [kern_info[2]] is
    [pp_other] and [kern_info[5]] is [pp_dx_adv1]. *)
Record pair_pos : Type := {
  pp_subtable : string; pp_kind : string; pp_other : string;
  pp_dx1 : Z; pp_dy1 : Z; pp_dx_adv1 : Z; pp_dy_adv1 : Z;
  pp_dx2 : Z; pp_dy2 : Z; pp_dx_adv2 : Z; pp_dy_adv2 : Z
}.

(** [fmap(f, it)]: the comprehension [[j for i in it for j in f(i)]],
    evaluated at once. *)
Definition fmap_list {A B} (f : A → list B) (it : iterable A)
  : list B * iterable A :=
  let '(xs, it') := drain it in (xs ≫= f, it').

(** [read_kern]: the kerning iterator of a glyph, and what is left of
    [kern_subtable_names], which the comprehension has traversed. *)
Definition read_kern (getPosSub : string → list pair_pos)
    (kern_subtable_names : iterable string)
  : iterable (string * Z) * iterable string :=
  let '(infos, names') := fmap_list getPosSub kern_subtable_names in
  let kept := List.filter (fun kern_info => negb (pp_dx_adv1 kern_info =? 0)) infos in
  (PyIter ((fun kern_info => (pp_other kern_info, pp_dx_adv1 kern_info)) <$> kept),
   names').

Definition write_kerns (glyph_name_id_map : gmap string Z)
    (kerns : iterable (string * Z)) : W unit :=
  if negb (truthy kerns) then write_packed pack_H 0
  else
    let '(items, kerns1) := drain kerns in          (* list(kerns) *)
    write_packed pack_H (Z.of_nat (length items));;
    resolved ← lift (force (py_map
      (fun x => gid ← name_id glyph_name_id_map x.1; mret (gid, x.2)) kerns1));
    let sorted_kerns := sorted fst resolved in
    for_each
      (fun '(glyph, value) =>
         bs ← lift (pack2 pack_H pack_h glyph value); f_write bs)
      sorted_kerns.

(** ** Kerning class tables *)

(** A table of [font.getKerningClass]: the classes of the left glyphs
    and of the right glyphs (the first class is [None]) and the kerning
    values, row by row. *)
Definition kerning_class : Type :=
  list (option (list string)) * list (option (list string)) * list Z.

(** The fontforge calls behind [read_kerning_class]. *)
Record font_lookups : Type := {
  gpos_lookups : list string;
  getLookupInfo : string → option string;   (* the lookup type, info[0] *)
  getLookupSubtables : string → list string;
  isKerningClass : string → bool;
  getKerningClass : string → kerning_class
}.

(** [_read_lookup_subtables], with the default lookup test when
    [is_target_lookup] is not given: a [filter] object. *)
Definition read_lookup_subtables (font : font_lookups)
    (is_target_lookup : string → bool) (is_target_subtable : string → bool)
    (lookups : list string) : iterable string :=
  let kept := List.filter
    (fun lookup_name => match getLookupInfo font lookup_name with
                        | Some info => is_target_lookup info
                        | None => false
                        end) lookups in
  PyIter (List.filter is_target_subtable (kept ≫= getLookupSubtables font)).

(** [read_kerning_class]: a [map] object over the class subtables. *)
Definition read_kerning_class (font : font_lookups) : iterable kerning_class :=
  let names := read_lookup_subtables font
    (fun info => String.eqb info "gpos_pair") (isKerningClass font)
    (gpos_lookups font) in
  PyIter (getKerningClass font <$> (drain names).1).

(** The chain [write_classes] of [write_clm_kerning_class], stage by
    stage; its argument is [enumerate(classes[1:])]. *)
Definition write_classes (glyph_name_id_map : gmap string Z)
    (classes : iterable (Z * option (list string))) : W unit :=
  (* map(lambda y: map(lambda x: (x, y[0]), y[1]), classes) *)
  let xs1 := py_map
    (fun y => match y.2 with
              | Some names => Ok (py_map (fun x => Ok (x, y.1)) (PySeq names))
              | None => Raise TypeError
              end) classes in
  (* do(lambda xs: f.write(pack('!H', len(xs)))) *)
  n1 ← lift (py_len xs1);
  write_packed pack_H n1;;
  (* fmap(lambda x: x) *)
  xs3 ← lift (inner ← force xs1; nested ← map_result force inner;
              mret (concat nested));
  (* map(lambda n: (glyph_name_id_map[n[0]], n[1])), then sorted *)
  xs4 ← lift (force (py_map
    (fun n => gid ← name_id glyph_name_id_map n.1; mret (gid, n.2))
    (PySeq xs3)));
  let xs5 := sorted fst xs4 in
  (* do(lambda xs: f.write(pack('!H', len(xs)))) *)
  n5 ← lift (py_len (PySeq xs5));
  write_packed pack_H n5;;
  (* map(lambda n: pack('!HH', n[0], n[1])), then do_loop(f.write) *)
  let xs7 := py_map (fun n => pack2 pack_H pack_H n.1 n.2) (PySeq xs5) in
  for_each (fun r => bs ← lift r; f_write bs) (drain xs7).1.

(** [i % column_count] *)
Definition py_mod (i n : Z) : result Z :=
  if n =? 0 then Raise ZeroDivisionError else Ok (i `mod` n).

(** The body of the loop over the kerning values of one table, for the
    value [v] at the index [i]. *)
Definition write_value (column_count : Z) (iv : Z * Z) : W unit :=
  let '(i, v) := iv in
  if i <? column_count then mret tt
  else
    r ← lift (py_mod i column_count);
    if r =? 0 then mret tt else write_packed pack_h v.

(** [for i, v in enumerate(value)] *)
Definition write_value_matrix (column_count : Z) (value : list Z) : W unit :=
  for_each (write_value column_count) (enumerate value).

Definition write_clm_kerning_class (kerning_classes : iterable kerning_class)
    (glyph_name_id_map : gmap string Z) : W unit :=
  let '(tables, kerning_classes1) := drain kerning_classes in   (* list(...) *)
  write_packed pack_H (Z.of_nat (length tables));;
  for_each
    (fun '(left_, right_, value) =>
       write_classes glyph_name_id_map (PyIter (enumerate (drop 1 left_)));;
       write_classes glyph_name_id_map (PyIter (enumerate (drop 1 right_)));;
       let column_count := Z.of_nat (length right_) in
       write_value_matrix column_count value)
    (drain kerning_classes1).1.

(** ** Ligatures

    A node of the forest is the dictionary [{'glyph', 'char', 'liga',
    'children'}]; ['char'] is a glyph name, and the integer [0] in the
    root. *)

#[local] Unset Elimination Schemes.
Inductive node : Type :=
  Node { glyph : Z; char : pyval; liga : Z; children : list node }.
#[local] Set Elimination Schemes.

Fixpoint find_first {A} (xs : list A) (predicate : A → bool) : option A :=
  match xs with
  | [] => None
  | x :: xs' => if predicate x then Some x else find_first xs' predicate
  end.

(** One round of the loop of [add_node]: [child] is the first node of
    [children] for [g], found by [find_first], or else a new node
    appended to [children]. The dictionaries are updated in place, so
    what the rest of the loop does to [child], here [k], shows at the
    position of [child] in [children]. *)
Fixpoint with_child (g : Z) (c : pyval) (k : node → node)
    (children : list node) : list node :=
  match children with
  | [] => [k (Node g c (-1) [])]
  | x :: xs =>
    if glyph x =? g then k x :: xs else x :: with_child g c k xs
  end.

(** The loop of [add_node] from the pair [(g, c)] on, and the final
    [child['liga'] = liga]. *)
Fixpoint add_path (g : Z) (c : pyval) (rest : list (Z * pyval)) (l : Z)
    (nodes : list node) : list node :=
  with_child g c
    (fun child =>
       match rest with
       | [] => Node (glyph child) (char child) l (children child)
       | (g', c') :: rest' =>
         Node (glyph child) (char child) (liga child)
              (add_path g' c' rest' l (children child))
       end)
    nodes.

(** [add_node]: with no glyph at all, [child] is still [None] at the
    final assignment. *)
Definition add_node (glyphs : list (Z * pyval)) (l : Z) (forest : list node)
  : result (list node) :=
  match glyphs with
  | [] => Raise TypeError
  | (g, c) :: rest => Ok (add_path g c rest l forest)
  end.

Fixpoint sort_node (n : node) : node :=
  match n with
  | Node g c l ch => Node g c l (sorted glyph (sort_node <$> ch))
  end.

Definition sort_children (children : list node) : list node :=
  sorted glyph (sort_node <$> children).

Fixpoint write_node (n : node) : W unit :=
  match n with
  | Node g c l ch =>
    write_packed pack_H g;;
    write_packed pack_i l;;
    write_packed pack_H (Z.of_nat (length ch));;
    for_each write_node ch
  end.

(** The argument [map(lambda char: (glyph_name_id_map[char], char,),
    chars)] of [add_node], as the loop of [add_node] gets it. The names
    are resolved while the loop walks them; an exception leaves
    [write_ligas] before anything is written. *)
Definition rule_glyphs (glyph_name_id_map : gmap string Z)
    (chars : list string) : result (list (Z * pyval)) :=
  force (py_map
    (fun char => gid ← name_id glyph_name_id_map char; mret (gid, Str char))
    (PySeq chars)).

Definition build_forest (ligas : list (list string * Z))
    (glyph_name_id_map : gmap string Z) : result (list node) :=
  for_fold
    (fun forest '(chars, l) =>
       glyphs ← rule_glyphs glyph_name_id_map chars;
       add_node glyphs l forest)
    ligas [].

Definition write_ligas (ligas : list (list string * Z))
    (glyph_name_id_map : gmap string Z) : W unit :=
  forest ← lift (build_forest ligas glyph_name_id_map);
  let forest := sort_children forest in
  let root := Node 0 (Int 0) (-1) forest in
  write_node root.

(** ** Glyphs *)

(** A glyph assembly: the italics correction and the parts [(glyph name,
    flag, start connector length, end connector length, full advance)],
    [None] when the glyph has none. *)
Definition assembly : Type := Z * option (list (string * list Z)).

(** The tuple of [read_math]. *)
Record math_record : Type := {
  italic_correction : Z;
  topaccent : Z;
  horizontal_variants : list string;
  vertical_variants : list string;
  scripts_variants : list string;
  horizontal_assembly : assembly;
  vertical_assembly : assembly;
  math_kern : list (option (list (Z * Z)))
}.

(** The tuple of [read_glyph]. The metrics are numbers (the bounding
    box of fontforge is made of floats), kept here as rationals. *)
Record glyph_info : Type := {
  metrics : Q * Q * Q;
  kerning : iterable (string * Z);
  math : option math_record;
  path_cmds : option (list (list pyval));
  glyph_name : string
}.

(** [int(v)] on a finite number: truncation towards zero. *)
Definition int_of (v : Q) : Z := Z.quot (Qnum v) (Z.pos (Qden v)).

Section write_glyphs.
Variable glyph_name_id_map : gmap string Z.

Definition write_metrics (m : Q * Q * Q) : W unit :=
  let '(width, height, depth) := m in
  for_each (fun v => write_packed pack_h (int_of v)) [width; height; depth].

Definition write_variants (variants : list string) : W unit :=
  let length := match variants with
                | [] => 0
                | _ :: _ => Z.of_nat (length variants)
                end in
  write_packed pack_H length;;
  if length =? 0 then mret tt
  else for_each
         (fun v => gid ← lift (name_id glyph_name_id_map v);
                   write_packed pack_H gid)
         variants.

Definition write_glyph_assembly (a : assembly) : W unit :=
  match a.2 with
  | None | Some [] => f_write (pack_bool false)
  | Some ((_ :: _) as parts) =>
    f_write (pack_bool true);;
    write_packed pack_H (Z.of_nat (length parts));;
    write_packed pack_h a.1;;
    for_each
      (fun part : string * list Z =>
         gid ← lift (name_id glyph_name_id_map part.1);
         write_packed pack_H gid;;
         for_each (write_packed pack_H) part.2)
      parts
  end.

Definition write_math_kern (math_kerns : list (option (list (Z * Z))))
  : W unit :=
  for_each
    (fun i =>
       match i with
       | None | Some [] => write_packed pack_H 0
       | Some ((_ :: _) as pairs) =>
         write_packed pack_H (Z.of_nat (length pairs));;
         for_each
           (fun '(correction_height, value) =>
              bs ← lift (pack2 pack_h pack_h correction_height value);
              f_write bs)
           pairs
       end)
    math_kerns.

Definition write_math (m : option math_record) : W unit :=
  match m with
  | None => lift (Raise TypeError)
  | Some m =>
    write_packed pack_h (italic_correction m);;
    write_packed pack_h (topaccent m);;
    write_variants (horizontal_variants m);;
    write_variants (vertical_variants m);;
    write_variants (scripts_variants m);;
    write_glyph_assembly (horizontal_assembly m);;
    write_glyph_assembly (vertical_assembly m);;
    write_math_kern (math_kern m)
  end.

Definition write_path (path : option (list (list pyval))) : W unit :=
  match path with
  | None => lift (Raise TypeError)
  | Some path =>
    write_packed pack_H (Z.of_nat (length path));;
    for_each
      (fun cmd =>
         bs ← lift (match cmd !! 0%nat with
                    | None => Raise IndexError
                    | Some (Int _) => Raise TypeError
                    | Some (Str x) => b ← bytes_ascii x; pack_c b
                    end);
         f_write bs;;
         for_each
           (fun param => match param with
                         | Int n => write_packed pack_h n
                         | Str _ => lift (Raise StructError)
                         end)
           (drop 1 cmd))
      path
  end.

Definition write_glyphs (glyphs : list glyph_info)
    (is_math_font have_glyph_path : bool) : W unit :=
  write_packed pack_H (Z.of_nat (length glyphs));;
  for_each
    (fun g =>
       write_metrics (metrics g);;
       write_kerns glyph_name_id_map (kerning g);;
       (if is_math_font then write_math (math g) else mret tt);;
       (if have_glyph_path then write_path (path_cmds g) else mret tt))
    glyphs.
End write_glyphs.

Definition write_math_consts (consts : list Z) : W unit :=
  for_each (write_packed pack_h) consts.

(** ** The conversion *)

(** What [parse_otf] has read from the font when it opens the output
    file. *)
Record font_data : Type := {
  math_consts : list Z;
  kern_class_tables : iterable kerning_class;
  unicode_glyph_map : list (Z * Z);
  glyph_name_id_map : gmap string Z;
  glyphs : list glyph_info;
  ligas : list (list string * Z);
  em : Z;
  xheight : Q;
  ascent : Z;
  descent : Z
}.

(** [parse_otf], from [with open(output_file_path, 'wb') as f] on. *)
Definition parse_otf (font : font_data) (is_math_font have_glyph_path : bool)
  : W unit :=
  bc ← lift (b ← bytes_ascii "c"; pack_c b); f_write bc;;
  bl ← lift (b ← bytes_ascii "l"; pack_c b); f_write bl;;
  bm ← lift (b ← bytes_ascii "m"; pack_c b); f_write bm;;
  write_packed pack_H 2;;
  write_packed pack_B (if have_glyph_path then 2 else 1);;
  f_write (pack_bool is_math_font);;
  write_packed pack_H (em font);;
  write_packed pack_H (int_of (xheight font));;
  write_packed pack_H (ascent font);;
  write_packed pack_H (descent font);;
  write_clm_unicode_glyph_map (unicode_glyph_map font);;
  write_clm_kerning_class (kern_class_tables font) (glyph_name_id_map font);;
  write_ligas (ligas font) (glyph_name_id_map font);;
  (if is_math_font then write_math_consts (math_consts font) else mret tt);;
  write_glyphs (glyph_name_id_map font) (glyphs font)
               is_math_font have_glyph_path.

(** ** The command line *)

(** What [main] does: print the usage text and return, or call
    [parse_otf] with these arguments. *)
Inductive action : Type :=
| PrintUsage
| Convert (file_path : string) (is_math_font have_glyph_path : bool)
          (output_file_path : string).

(** [sys.argv[k]] *)
Definition argv_at (argv : list string) (k : nat) : result string :=
  match argv !! k with
  | Some a => Ok a
  | None => Raise IndexError
  end.

(** [main]; [argv] is [sys.argv], the script name first. The arguments
    of the call are evaluated before [parse_otf] is entered. *)
Definition main (argv : list string) : result action :=
  if Z.of_nat (length argv) <? 4 then Ok PrintUsage
  else
    a1 ← argv_at argv 1;
    a2 ← argv_at argv 2;
    a3 ← argv_at argv 3;
    a4 ← argv_at argv 4;
    mret (Convert a1 (String.eqb a2 "true") (String.eqb a3 "true") a4).

(** * Vocabulary of the properties *)

(** A command as the parser builds it: an opcode the parser knows,
    followed by as many integers as the opcode takes. *)
Definition wf_cmd (t : list pyval) : Prop :=
  ∃ x args, t = Str x :: (Int <$> args)
    ∧ path_cmd_arg_cnt x ≠ 0
    ∧ length args = Z.to_nat (path_cmd_arg_cnt x).

(** The octets of one entry of the unicode map: the code point on 32
    bits, the glyph id on 16 bits. *)
Definition encode_entry (e : Z * Z) : list Z :=
  be_octets 4 e.1 ++ be_octets 2 e.2.

(** A font with one kerning class subtable: left classes [sentinel,
    {A, B}], right classes [sentinel, {C}], values [[0, 0], [0, 5]]. *)
Definition example_table : kerning_class :=
  ([None; Some ["A"; "B"]], [None; Some ["C"]], [0; 0; 0; 5])%string.

Definition example_font : font_lookups := {|
  gpos_lookups := ["kern"%string];
  getLookupInfo := fun _ => Some "gpos_pair"%string;
  getLookupSubtables := fun _ => ["kern-1"%string];
  isKerningClass := fun _ => true;
  getKerningClass := fun _ => example_table
|}.

Definition example_ids : gmap string Z :=
  list_to_map [("A", 1); ("B", 2); ("C", 3)]%string.

(** A glyph with one kerning pair: -50 units before the glyph [B]. *)
Definition example_getPosSub (subtable : string) : list pair_pos :=
  [ {| pp_subtable := subtable; pp_kind := "Pair"; pp_other := "B";
       pp_dx1 := 0; pp_dy1 := 0; pp_dx_adv1 := -50; pp_dy_adv1 := 0;
       pp_dx2 := 0; pp_dy2 := 0; pp_dx_adv2 := 0; pp_dy_adv2 := 0 |} ].

(** The octets of a count, when it fits 16 bits. *)
Definition count_octets (n : nat) : list Z :=
  if Z.of_nat n <=? 65535 then be_octets 2 (Z.of_nat n) else [].

(** The rows of a matrix stored row by row, [cols] values each. *)
Fixpoint rows_of (cols rows : nat) (value : list Z) : list (list Z) :=
  match rows with
  | O => []
  | S r => take cols value :: rows_of cols r (drop cols value)
  end.

(** The cells outside row 0 and column 0, row by row. *)
Definition inner_cells (rows cols : nat) (value : list Z) : list Z :=
  concat (drop 1 <$> drop 1 (rows_of cols rows value)).

(** [enumerate(xs)], counting from [off]. *)
Definition enum_from {A} (off : nat) (xs : list A) : list (Z * A) :=
  imap (fun i x => (Z.of_nat (off + i), x)) xs.

(** The node of a forest that a sequence of glyph ids leads to. *)
Fixpoint find_path (q : list Z) (forest : list node) : option node :=
  match q with
  | [] => None
  | g :: q' =>
    match find_first forest (fun x => glyph x =? g) with
    | None => None
    | Some n =>
      match q' with
      | [] => Some n
      | _ :: _ => find_path q' (children n)
      end
    end
  end.

(** The ligature recorded for a sequence of glyph ids, if the forest has
    a node for it. *)
Definition liga_at (q : list Z) (forest : list node) : option Z :=
  liga <$> find_path q forest.

(** Forests with the same nodes and ligatures, whatever the order of the
    children. *)
Definition same_ligas (f f' : list node) : Prop :=
  ∀ q, liga_at q f = liga_at q f'.

(** A rule the loop of [add_node] accepts: its names resolve and there
    is at least one. *)
Definition rule_ok (glyph_name_id_map : gmap string Z)
    (rule : list string * Z) : bool :=
  match rule_glyphs glyph_name_id_map rule.1 with
  | Ok (_ :: _) => true
  | _ => false
  end.

(** What an accepted rule does to the forest. *)
Definition add_rule (glyph_name_id_map : gmap string Z)
    (forest : list node) (rule : list string * Z) : list node :=
  match rule_glyphs glyph_name_id_map rule.1 with
  | Ok ((g, c) :: rest) => add_path g c rest rule.2 forest
  | _ => forest
  end.

(** The glyph ids of a rule. *)
Definition rule_path (glyph_name_id_map : gmap string Z)
    (rule : list string * Z) : option (list Z) :=
  match rule_glyphs glyph_name_id_map rule.1 with
  | Ok glyphs => Some (glyphs.*1)
  | Raise _ => None
  end.

(** No two rules give different ligatures to one sequence of glyph
    ids. *)
Definition no_conflict (glyph_name_id_map : gmap string Z)
    (ligas : list (list string * Z)) : Prop :=
  ∀ r1 r2 p, r1 ∈ ligas → r2 ∈ ligas →
    rule_path glyph_name_id_map r1 = Some p →
    rule_path glyph_name_id_map r2 = Some p → r1.2 = r2.2.

(** The liga of a path after a rule for the path [p] with the ligature
    [l] is added, from the liga [old] it had before. *)
Definition liga_after (p : list Z) (l : Z) (old : option Z) (q : list Z)
  : option Z :=
  if decide (q = p) then Some l
  else if decide (q ≠ [] ∧ q `prefix_of` p) then Some (default (-1) old)
  else old.

#[local] Unset Elimination Schemes.

(** The children of every node have distinct glyph ids. *)
Inductive distinct_keys : node → Prop :=
| distinct_keys_node g c l ch :
    NoDup (glyph <$> ch) → Forall distinct_keys ch →
    distinct_keys (Node g c l ch).

(** The children of every node are in strictly ascending order of glyph
    id. *)
Inductive children_sorted : node → Prop :=
| children_sorted_node g c l ch :
    StronglySorted (fun a b => glyph a < glyph b) ch →
    Forall children_sorted ch →
    children_sorted (Node g c l ch).

#[local] Set Elimination Schemes.

(** A node without its names, which [write_node] does not read. *)
Fixpoint strip (n : node) : node :=
  match n with
  | Node g c l ch => Node g (Int 0) l (strip <$> ch)
  end.

(** * The reading side

    What the script reads from fontforge, for the functions that feed
    the encoders. *)

(** [s.split(' ')]: the pieces between single spaces, empty ones
    included. *)
Fixpoint split_space (s : string) : list string :=
  match s with
  | EmptyString => [EmptyString]
  | String c s' =>
    if Ascii.eqb c " " then EmptyString :: split_space s'
    else match split_space s' with
         | w :: ws => String c w :: ws
         | [] => [String c EmptyString]
         end
  end.

(** [' '.join(words)] *)
Fixpoint join_space (words : list string) : string :=
  match words with
  | [] => EmptyString
  | [w] => w
  | w :: ws => String.append w (String " " (join_space ws))
  end.

(** The attributes of a fontforge glyph that the script reads.
    [glyph.getPosSub(subtable)] returns tuples whose shape follows the
    kind of the subtable: [getPosSub_pair] is its value on a pair
    positioning subtable, [getPosSub_names] on a ligature or alternate
    subtable, where a tuple is [(subtable, kind, glyph name, ...)]. The
    attribute [d] of the first path of the glyph's SVG export is
    [path_d]. *)
Record ff_glyph : Type := {
  glyphname : string;
  unicode : Z;
  originalgid : Z;
  width : Q;
  boundingBox : Q * Q * Q * Q;
  getPosSub_pair : string → list pair_pos;
  getPosSub_names : string → list (list string);
  path_d : option string;
  italicCorrection : Z;
  glyph_topaccent : Z;
  horizontalVariants : option string;
  verticalVariants : option string;
  horizontalComponentItalicCorrection : Z;
  horizontalComponents : option (list (string * list Z));
  verticalComponentItalicCorrection : Z;
  verticalComponents : option (list (string * list Z));
  mathKern_topLeft : option (list (Z * Z));
  mathKern_topRight : option (list (Z * Z));
  mathKern_bottomLeft : option (list (Z * Z));
  mathKern_bottomRight : option (list (Z * Z))
}.

(** [max(0, y)] and [min(0, y)] *)
Definition max_0 (y : Q) : Q := if Qle_bool y 0 then 0%Q else y.
Definition min_0 (y : Q) : Q := if Qle_bool 0 y then 0%Q else y.

Definition read_metrics (g : ff_glyph) : Q * Q * Q :=
  let '(xmin, ymin, xmax, ymax) := boundingBox g in
  (width g, max_0 ymax, Qopp (min_0 ymin)).

(** [read_variants]: [variants] is [None] or a string of glyph names. *)
Definition read_variants (variants : option string) : list string :=
  match variants with
  | None => []
  | Some EmptyString => []
  | Some s => split_space s
  end.

(** [read_scripts]: two comprehensions, so a list; the subtable names
    are traversed. *)
Definition read_scripts (g : ff_glyph) (subtable_names : iterable string)
  : list string * iterable string :=
  let '(infos, names') := fmap_list (getPosSub_names g) subtable_names in
  (infos ≫= drop 2, names').

Definition read_math_kern_record (g : ff_glyph)
  : list (option (list (Z * Z))) :=
  [mathKern_topLeft g; mathKern_topRight g;
   mathKern_bottomLeft g; mathKern_bottomRight g].

Definition read_math (g : ff_glyph) (scripts_subtable_names : iterable string)
  : math_record * iterable string :=
  let '(scripts, names') := read_scripts g scripts_subtable_names in
  ({| italic_correction := italicCorrection g;
      topaccent := glyph_topaccent g;
      horizontal_variants := read_variants (horizontalVariants g);
      vertical_variants := read_variants (verticalVariants g);
      scripts_variants := scripts;
      horizontal_assembly :=
        (horizontalComponentItalicCorrection g, horizontalComponents g);
      vertical_assembly :=
        (verticalComponentItalicCorrection g, verticalComponents g);
      math_kern := read_math_kern_record g |},
   names').

(** [read_ligatures]: a [map] object over the ligature tuples of the
    glyph; the subtable names are traversed when it is built. *)
Definition read_ligatures (g : ff_glyph) (liga_subtable_names : iterable string)
  : iterable (list string * Z) * iterable string :=
  let '(infos, names') := fmap_list (getPosSub_names g) liga_subtable_names in
  (PyIter ((fun liga_info => (drop 2 liga_info, originalgid g)) <$> infos),
   names').

(** The outcome of [read_glyph_path]; the parser always reaches one
    ([parse_path_total]), so the default is never used. *)
Definition path_of (d : option string) : result (list (list pyval)) :=
  default (Ok []) (read_glyph_path d).

(** [read_glyph]: the tuple, and what is left of the two lists of
    subtable names. *)
Definition read_glyph (g : ff_glyph) (is_math_font parse_path : bool)
    (kern_subtable_names scripts_subtable_names : iterable string)
  : result (glyph_info * iterable string * iterable string) :=
  let '(kerns, kern_names') := read_kern (getPosSub_pair g) kern_subtable_names in
  let '(m, scripts_names') :=
    if is_math_font
    then let '(m, names') := read_math g scripts_subtable_names in (Some m, names')
    else (None, scripts_subtable_names) in
  path ← (if parse_path then p ← path_of (path_d g); mret (Some p)
          else mret None);
  mret ({| metrics := read_metrics g; kerning := kerns; math := m;
           path_cmds := path; glyph_name := glyphname g |},
        kern_names', scripts_names').

(** The names of the attributes of [font.math] that [read_math_consts]
    reads, in its order. *)
Definition math_const_names : list string :=
  ["ScriptPercentScaleDown"; "ScriptScriptPercentScaleDown";
   "DelimitedSubFormulaMinHeight"; "DisplayOperatorMinHeight";
   "MathLeading"; "AxisHeight"; "AccentBaseHeight";
   "FlattenedAccentBaseHeight"; "SubscriptShiftDown"; "SubscriptTopMax";
   "SubscriptBaselineDropMin"; "SuperscriptShiftUp";
   "SuperscriptShiftUpCramped"; "SuperscriptBottomMin";
   "SuperscriptBaselineDropMax"; "SubSuperscriptGapMin";
   "SuperscriptBottomMaxWithSubscript"; "SpaceAfterScript";
   "UpperLimitGapMin"; "UpperLimitBaselineRiseMin"; "LowerLimitGapMin";
   "LowerLimitBaselineDropMin"; "StackTopShiftUp";
   "StackTopDisplayStyleShiftUp"; "StackBottomShiftDown";
   "StackBottomDisplayStyleShiftDown"; "StackGapMin";
   "StackDisplayStyleGapMin"; "StretchStackTopShiftUp";
   "StretchStackBottomShiftDown"; "StretchStackGapAboveMin";
   "StretchStackGapBelowMin"; "FractionNumeratorShiftUp";
   "FractionNumeratorDisplayStyleShiftUp"; "FractionDenominatorShiftDown";
   "FractionDenominatorDisplayStyleShiftDown"; "FractionNumeratorGapMin";
   "FractionNumeratorDisplayStyleGapMin"; "FractionRuleThickness";
   "FractionDenominatorGapMin"; "FractionDenominatorDisplayStyleGapMin";
   "SkewedFractionHorizontalGap"; "SkewedFractionVerticalGap";
   "OverbarVerticalGap"; "OverbarRuleThickness"; "OverbarExtraAscender";
   "UnderbarVerticalGap"; "UnderbarRuleThickness";
   "UnderbarExtraDescender"; "RadicalVerticalGap";
   "RadicalDisplayStyleVerticalGap"; "RadicalRuleThickness";
   "RadicalExtraAscender"; "RadicalKernBeforeDegree";
   "RadicalKernAfterDegree"; "RadicalDegreeBottomRaisePercent";
   "MinConnectorOverlap"]%string.

(** [read_math_consts]; [m] gives the value of an attribute of
    [font.math]. *)
Definition read_math_consts (m : string → Z) : list Z :=
  m <$> math_const_names.

(** A fontforge font: its glyphs in the order of [for glyph_name in
    font], its lookups, and its global values. [has_ssty] tells whether
    a feature of the lookup has the tag [ssty]. *)
Record ff_font : Type := {
  font_glyphs : list ff_glyph;
  lookups : font_lookups;
  gsub_lookups : list string;
  has_ssty : string → bool;
  font_math : string → Z;
  font_em : Z;
  xHeight : Q;
  font_ascent : Z;
  font_descent : Z
}.

Definition read_kern_subtables (font : font_lookups) : iterable string :=
  read_lookup_subtables font
    (fun lookup_info => String.eqb lookup_info "gpos_pair")
    (fun subtable_name => negb (isKerningClass font subtable_name))
    (gpos_lookups font).

Definition read_ligature_subtables (font : ff_font) : iterable string :=
  read_lookup_subtables (lookups font)
    (fun lookup_info => String.eqb lookup_info "gsub_ligature")
    (fun _ => true)
    (gsub_lookups font).

Definition read_scripts_subtables (font : ff_font) : iterable string :=
  let kept := List.filter
    (fun lookup_name =>
       match getLookupInfo (lookups font) lookup_name with
       | Some info => String.eqb info "gsub_alternate" && has_ssty font lookup_name
       | None => false
       end) (gsub_lookups font) in
  PyIter (List.filter (fun _ => true)
            (kept ≫= getLookupSubtables (lookups font))).

(** The variables the loop over the glyphs of [parse_otf] updates. *)
Record read_state : Type := {
  rs_unicode_glyph_map : list (Z * Z);
  rs_glyph_name_id_map : gmap string Z;
  rs_glyphs : list glyph_info;
  rs_ligas : list (list string * Z);
  rs_kern_subtable_names : iterable string;
  rs_liga_subtable_names : iterable string;
  rs_scripts_subtable_names : iterable string
}.

(** One round of the loop [for glyph_name in font]. *)
Definition read_round (is_math_font have_glyph_path : bool)
    (s : read_state) (g : ff_glyph) : result read_state :=
  let unicode_glyph_map :=
    if unicode g =? -1 then rs_unicode_glyph_map s
    else rs_unicode_glyph_map s ++ [(unicode g, originalgid g)] in
  let glyph_name_id_map :=
    <[glyphname g := originalgid g]> (rs_glyph_name_id_map s) in
  r ← read_glyph g is_math_font have_glyph_path
         (rs_kern_subtable_names s) (rs_scripts_subtable_names s);
  let '(info, kern_names, scripts_names) := r in
  let '(liga_info, liga_names) :=
    read_ligatures g (rs_liga_subtable_names s) in
  mret {| rs_unicode_glyph_map := unicode_glyph_map;
          rs_glyph_name_id_map := glyph_name_id_map;
          rs_glyphs := rs_glyphs s ++ [info];
          rs_ligas := rs_ligas s ++ (drain liga_info).1;
          rs_kern_subtable_names := kern_names;
          rs_liga_subtable_names := liga_names;
          rs_scripts_subtable_names := scripts_names |}.

(** [parse_otf] up to the opening of the output file: what it has read. *)
Definition parse_otf_read (font : ff_font) (is_math_font have_glyph_path : bool)
  : result font_data :=
  let consts := if is_math_font then read_math_consts (font_math font) else [] in
  s ← for_fold (read_round is_math_font have_glyph_path) (font_glyphs font)
        {| rs_unicode_glyph_map := []; rs_glyph_name_id_map := ∅;
           rs_glyphs := []; rs_ligas := [];
           rs_kern_subtable_names := read_kern_subtables (lookups font);
           rs_liga_subtable_names := read_ligature_subtables font;
           rs_scripts_subtable_names := read_scripts_subtables font |};
  mret {| math_consts := consts;
          kern_class_tables := read_kerning_class (lookups font);
          unicode_glyph_map := rs_unicode_glyph_map s;
          glyph_name_id_map := rs_glyph_name_id_map s;
          glyphs := rs_glyphs s;
          ligas := rs_ligas s;
          em := font_em font;
          xheight := xHeight font;
          ascent := font_ascent font;
          descent := font_descent font |}.

(** [parse_otf] as a whole: an exception while reading leaves before
    the output file is opened. *)
Definition parse_otf_run (font : ff_font) (is_math_font have_glyph_path : bool)
  : W unit :=
  data ← lift (parse_otf_read font is_math_font have_glyph_path);
  parse_otf data is_math_font have_glyph_path.

(** A font of two glyphs, [f] and [i], with a kerning pair and a
    ligature rule on each, one pair subtable and one ligature subtable. *)
Definition example_glyph (name : string) (code gid : Z) (d : option string)
  : ff_glyph := {|
  glyphname := name; unicode := code; originalgid := gid;
  width := 500; boundingBox := (0, -10, 480, 700)%Q;
  getPosSub_pair := fun subtable =>
    [ {| pp_subtable := subtable; pp_kind := "Pair"; pp_other := "f";
         pp_dx1 := 0; pp_dy1 := 0; pp_dx_adv1 := -20; pp_dy_adv1 := 0;
         pp_dx2 := 0; pp_dy2 := 0; pp_dx_adv2 := 0; pp_dy_adv2 := 0 |} ];
  getPosSub_names := fun subtable => [[subtable; "Ligature"; "f"; "i"]]%string;
  path_d := d;
  italicCorrection := 0; glyph_topaccent := 32767;
  horizontalVariants := None; verticalVariants := None;
  horizontalComponentItalicCorrection := 0; horizontalComponents := None;
  verticalComponentItalicCorrection := 0; verticalComponents := None;
  mathKern_topLeft := None; mathKern_topRight := None;
  mathKern_bottomLeft := None; mathKern_bottomRight := None
|}.

Definition example_ff_font (d : option string) : ff_font := {|
  font_glyphs := [example_glyph "f" 102 1 (Some "M 0 0 L 10 20 Z"%string);
                  example_glyph "i" (-1) 2 d];
  lookups := {|
    gpos_lookups := ["kern"%string];
    getLookupInfo := fun name =>
      if String.eqb name "kern" then Some "gpos_pair"%string
      else Some "gsub_ligature"%string;
    getLookupSubtables := fun name => [String.append name "-1"];
    isKerningClass := fun _ => false;
    getKerningClass := fun _ => example_table |};
  gsub_lookups := ["liga"%string];
  has_ssty := fun _ => false;
  font_math := fun _ => 0;
  font_em := 1000; xHeight := 450; font_ascent := 800; font_descent := 200
|}.

(** The octets of a path command: the opcode, then its operands on 16
    bits each. *)
Definition encode_cmd (t : list pyval) : list Z :=
  match t with
  | Str x :: args =>
    ((fun c => Z.of_nat (nat_of_ascii c)) <$> list_ascii_of_string x)
    ++ (args ≫= fun a => match a with
                          | Int n => be_octets 2 n
                          | Str _ => []
                          end)
  | _ => []
  end.

(** The operands of a path command fit 16 bits. *)
Definition operands_fit (t : list pyval) : Prop :=
  Forall (fun a => match a with
                   | Int n => -32768 ≤ n ≤ 32767
                   | Str _ => True
                   end) (drop 1 t).

(** * Properties *)

(** ** The output handle *)

Lemma for_each_ext {A} (f g : A → W unit) xs :
  (∀ x, x ∈ xs → f x = g x) → for_each f xs = for_each g xs.
Proof.
  induction xs as [|x xs IH]; intros H; [done|]. simpl.
  rewrite (H x) by left. rewrite IH; [done|].
  intros y Hy. apply H. by right.
Qed.

Lemma pack_int_ok lo hi n z :
  lo ≤ z ≤ hi → pack_int lo hi n z = Ok (be_octets n z).
Proof.
  intros [H1 H2]. unfold pack_int.
  by rewrite (proj2 (Z.leb_le _ _) H1), (proj2 (Z.leb_le _ _) H2).
Qed.

Lemma pack_int_inv lo hi n z bs :
  pack_int lo hi n z = Ok bs → lo ≤ z ≤ hi ∧ bs = be_octets n z.
Proof.
  unfold pack_int. destruct (lo <=? z) eqn:H1; [|done].
  destruct (z <=? hi) eqn:H2; [|done]. simpl. intros [= <-].
  apply Z.leb_le in H1. apply Z.leb_le in H2. done.
Qed.

Lemma be_octets_length n z : length (be_octets n z) = n.
Proof. induction n; simpl; congruence. Qed.

(** ** [sorted] *)

Section sorted.
Context {A : Type} (key : A → Z).

Lemma insert_by_perm x l : insert_by key x l ≡ₚ x :: l.
Proof.
  induction l as [|y l IH]; simpl; [done|].
  destruct (key x <=? key y); [done|].
  rewrite IH. apply perm_swap.
Qed.

Lemma sorted_perm l : sorted key l ≡ₚ l.
Proof.
  induction l as [|x l IH]; simpl; [done|].
  unfold sorted in *. simpl. by rewrite insert_by_perm, IH.
Qed.

Lemma sorted_length l : length (sorted key l) = length l.
Proof. by rewrite sorted_perm. Qed.

Lemma insert_by_sorted x l :
  StronglySorted (fun a b => key a ≤ key b) l →
  StronglySorted (fun a b => key a ≤ key b) (insert_by key x l).
Proof.
  induction 1 as [|y l Hl IH Hy]; simpl.
  - repeat constructor.
  - destruct (key x <=? key y) eqn:E.
    + apply Z.leb_le in E. constructor; [by constructor|].
      constructor; [done|].
      eapply Forall_impl; [exact Hy|]. simpl. lia.
    + apply Z.leb_gt in E. constructor; [done|].
      rewrite insert_by_perm. constructor; [lia|done].
Qed.

Lemma sorted_sorted l :
  StronglySorted (fun a b => key a ≤ key b) (sorted key l).
Proof.
  induction l as [|x l IH]; [constructor|].
  apply insert_by_sorted, IH.
Qed.

Lemma insert_by_strict x l :
  key x ∉ key <$> l →
  StronglySorted (fun a b => key a < key b) l →
  StronglySorted (fun a b => key a < key b) (insert_by key x l).
Proof.
  intros Hx. induction 1 as [|y l Hl IH Hy]; simpl.
  - repeat constructor.
  - rewrite fmap_cons, not_elem_of_cons in Hx. destruct Hx as [Hxy Hx].
    destruct (key x <=? key y) eqn:E.
    + apply Z.leb_le in E. constructor; [by constructor|].
      constructor; [lia|].
      eapply Forall_impl; [exact Hy|]. simpl. lia.
    + apply Z.leb_gt in E. constructor; [by apply IH|].
      rewrite insert_by_perm. constructor; [lia|done].
Qed.

Lemma sorted_strict l :
  NoDup (key <$> l) →
  StronglySorted (fun a b => key a < key b) (sorted key l).
Proof.
  induction l as [|x l IH]; [constructor|].
  rewrite fmap_cons, NoDup_cons. intros [Hx Hl].
  apply insert_by_strict; [|by apply IH].
  by rewrite sorted_perm.
Qed.

(** Stability, as [find_first] sees it: the first item with a given
    key is the same before and after sorting. *)
Lemma find_first_insert_by g x l :
  find_first (insert_by key x l) (fun y => key y =? g)
  = if key x =? g then Some x else find_first l (fun y => key y =? g).
Proof.
  induction l as [|y l IH]; simpl; [done|].
  destruct (key x <=? key y) eqn:E; simpl; [done|].
  apply Z.leb_gt in E. rewrite IH.
  destruct (key x =? g) eqn:Ex; [|done].
  apply Z.eqb_eq in Ex.
  destruct (key y =? g) eqn:Ey; [|done].
  apply Z.eqb_eq in Ey. lia.
Qed.

Lemma find_first_sorted g l :
  find_first (sorted key l) (fun y => key y =? g)
  = find_first l (fun y => key y =? g).
Proof.
  induction l as [|x l IH]; [done|].
  unfold sorted in *. simpl. by rewrite find_first_insert_by, IH.
Qed.
End sorted.

(** ** Glyph outline paths *)

Lemma digits_end_ge s j j' : digits_end s j = Ok j' → (j ≤ j')%nat.
Proof.
  revert j. induction s as [|c s IH]; intros j; simpl; [done|].
  destruct (is_valid_digit c).
  - intros H. apply IH in H. lia.
  - intros [= <-]. lia.
Qed.

Lemma skip_end_ge s i i' : skip_end s i = Ok i' → (i ≤ i')%nat.
Proof.
  revert i. induction s as [|c s IH]; intros i; simpl; [done|].
  destruct (is_valid_digit c).
  - intros [= <-]. lia.
  - intros H. apply IH in H. lia.
Qed.

Lemma read_operands_inv v cnt i cmd cmd' i' :
  read_operands v cnt i cmd = Ok (cmd', i') →
  (i ≤ i')%nat ∧ ∃ args, cmd' = cmd ++ (Int <$> args) ∧ length args = cnt.
Proof.
  revert i cmd. induction cnt as [|cnt IH]; intros i cmd; simpl.
  - intros [= <- <-]. split; [lia|]. exists []. by rewrite app_nil_r.
  - destruct (skip_end (drop i v) i) as [i1|] eqn:Hs; simpl; [|done].
    unfold digits.
    destruct (digits_end (drop i1 v) i1) as [j|] eqn:Hd; simpl; [|done].
    destruct (py_int (take (j - i1) (drop i1 v))) as [n|]; simpl; [|done].
    intros H. apply IH in H as [Hle (args & -> & Hlen)].
    apply skip_end_ge in Hs. apply digits_end_ge in Hd.
    split; [lia|]. exists (n :: args). simpl.
    split; [by rewrite <- app_assoc|by rewrite Hlen].
Qed.

Lemma read_cmds_total v rounds i data :
  (length v - i ≤ rounds)%nat → is_Some (read_cmds v rounds i data).
Proof.
  revert i data. induction rounds as [|rounds IH]; intros i data Hr; simpl.
  - rewrite lookup_ge_None_2 by lia. eauto.
  - destruct (v !! i) as [c|] eqn:Hc; [|eauto].
    apply lookup_lt_Some in Hc.
    destruct (path_cmd_arg_cnt (String c EmptyString) =? 0).
    + apply IH. lia.
    + destruct (read_operands _ _ _ _) as [[cmd i']|] eqn:Hops; [|eauto].
      apply read_operands_inv in Hops as [Hle _]. apply IH. lia.
Qed.

(** The parser needs no more rounds than it is given: it always reaches
    an outcome, a command list or an exception. *)
Lemma parse_path_total v : is_Some (parse_path v).
Proof. apply read_cmds_total. lia. Qed.

Lemma read_cmds_wf v rounds i data p :
  Forall wf_cmd data →
  read_cmds v rounds i data = Some (Ok p) → Forall wf_cmd p.
Proof.
  revert i data. induction rounds as [|rounds IH]; intros i data Hd; simpl.
  - destruct (v !! i); [done|]. by intros [= <-].
  - destruct (v !! i) as [c|]; [|by intros [= <-]].
    destruct (path_cmd_arg_cnt (String c EmptyString) =? 0) eqn:Hcnt.
    + by apply IH.
    + destruct (read_operands _ _ _ _) as [[cmd i']|] eqn:Hops; [|done].
      apply IH. apply Forall_app. split; [done|].
      apply read_operands_inv in Hops as [_ (args & -> & Hlen)].
      repeat constructor. exists (String c EmptyString), args.
      apply Z.eqb_neq in Hcnt. done.
Qed.

Lemma parse_path_wf v p : parse_path v = Some (Ok p) → Forall wf_cmd p.
Proof. apply read_cmds_wf. constructor. Qed.

Lemma one_of_In x names : one_of x names = true → In x names.
Proof.
  unfold one_of. intros (y & Hy & ->%String.eqb_eq)%existsb_exists. done.
Qed.

Lemma known_opcode x :
  path_cmd_arg_cnt x ≠ 0 →
  In x ["M"; "m"; "L"; "l"; "T"; "t"; "H"; "h"; "V"; "v"; "C"; "c";
        "S"; "s"; "Q"; "q"; "Z"; "z"]%string.
Proof.
  unfold path_cmd_arg_cnt. intros H.
  repeat match type of H with
  | (if one_of x ?l then _ else _) ≠ _ =>
    let E := fresh "E" in
    destruct (one_of x l) eqn:E;
      [apply one_of_In in E; simpl in *; tauto |]
  end.
  done.
Qed.

Ltac fixed_length :=
  repeat match goal with
  | H : length ?l = S _ |- _ =>
    destruct l; simpl in H; [discriminate H|]; injection H as H
  | H : length ?l = O |- _ =>
    destruct l; simpl in H; [clear H|discriminate H]
  end.

Ltac operands l :=
  lazymatch l with
  | @nil _ => constr:(@nil Z)
  | Int ?n :: ?l' => let r := operands l' in constr:(n :: r)
  end.

(** Mirroring a command of the parser succeeds, keeps its shape, and
    undoes itself. *)
Lemma mirror_cmd_wf t :
  wf_cmd t → ∃ t', mirror_cmd t = Ok t' ∧ wf_cmd t' ∧ mirror_cmd t' = Ok t.
Proof.
  intros (x & args & -> & Hne & Hlen).
  apply known_opcode in Hne. simpl in Hne.
  repeat (destruct Hne as [<-|Hne]; [|]); try done;
    match type of Hlen with
    | _ = ?n => let n' := eval vm_compute in n in change n with n' in Hlen
    end; fixed_length;
    (eexists; split; [cbn; reflexivity|]; split;
     [ match goal with
       | |- wf_cmd (Str ?x :: ?l) =>
         let args := operands l in
         exists x, args; split; [reflexivity|split; [done|reflexivity]]
       end
     | cbn; rewrite ?Z.opp_involutive; reflexivity ]).
Qed.

Lemma mirror_wf p :
  Forall wf_cmd p → ∃ p', mirror p = Ok p' ∧ Forall wf_cmd p' ∧ mirror p' = Ok p.
Proof.
  unfold mirror. induction 1 as [|t p Ht Hp (p' & IH1 & IH2 & IH3)]; simpl.
  - exists []. done.
  - destruct (mirror_cmd_wf t Ht) as (t' & H1 & H2 & H3).
    exists (t' :: p'). rewrite H1. simpl. rewrite IH1. simpl.
    split; [done|]. split; [by constructor|].
    rewrite H3. simpl. by rewrite IH3.
Qed.

(** C5. For every command list [p] that the parser produces from a path
    description, the mirror step succeeds on [p], and applied to its own
    result it returns [p] again: mirror(mirror(p)) == p. *)
Theorem mirror_involutive_on_parsed (v : string) (p : list (list pyval)) :
  parse_path v = Some (Ok p) →
  ∃ p', mirror p = Ok p' ∧ mirror p' = Ok p.
Proof.
  intros Hp. apply parse_path_wf, mirror_wf in Hp as (p' & H1 & _ & H2).
  eauto.
Qed.

Lemma mirror_involutive_on_parsed_witness :
  parse_path "M 1 2 C 1 -2 3 4 5 6 v 7 h 8 z"
  = Some (Ok [[Str "M"; Int 1; Int 2];
              [Str "C"; Int 1; Int (-2); Int 3; Int 4; Int 5; Int 6];
              [Str "v"; Int 7]; [Str "h"; Int 8]; [Str "z"]])
  ∧ ∃ p', mirror [[Str "M"; Int 1; Int 2];
                  [Str "C"; Int 1; Int (-2); Int 3; Int 4; Int 5; Int 6];
                  [Str "v"; Int 7]; [Str "h"; Int 8]; [Str "z"]] = Ok p'
          ∧ mirror p' = Ok [[Str "M"; Int 1; Int 2];
                  [Str "C"; Int 1; Int (-2); Int 3; Int 4; Int 5; Int 6];
                  [Str "v"; Int 7]; [Str "h"; Int 8]; [Str "z"]].
Proof.
  split; [vm_compute; reflexivity|].
  apply (mirror_involutive_on_parsed "M 1 2 C 1 -2 3 4 5 6 v 7 h 8 z").
  vm_compute. reflexivity.
Defined.

(** C6. The path description [M 10 20 L 30 40 Z] parses to the commands
    [(M,10,20)], [(L,30,40)], [(Z,)], the close command with no operand,
    and the mirror step turns them into [(M,10,-20)], [(L,30,-40)],
    [(Z,)], which is what [read_glyph_path] returns. *)
Theorem parse_then_mirror_example :
  parse_path "M 10 20 L 30 40 Z"
  = Some (Ok [[Str "M"; Int 10; Int 20]; [Str "L"; Int 30; Int 40]; [Str "Z"]])
  ∧ mirror [[Str "M"; Int 10; Int 20]; [Str "L"; Int 30; Int 40]; [Str "Z"]]
    = Ok [[Str "M"; Int 10; Int (-20)]; [Str "L"; Int 30; Int (-40)]; [Str "Z"]]
  ∧ read_glyph_path (Some "M 10 20 L 30 40 Z"%string)
    = Some (Ok [[Str "M"; Int 10; Int (-20)]; [Str "L"; Int 30; Int (-40)];
                [Str "Z"]]).
Proof. repeat split; vm_compute; reflexivity. Qed.

(** ** Loops that pack and write *)

Lemma write_packed_cases pack v :
  (∃ bs, pack v = Ok bs ∧ write_packed pack v = mkW (Ok tt) bs)
  ∨ (∃ e, pack v = Raise e ∧ write_packed pack v = mkW (Raise e) []).
Proof.
  unfold write_packed, mbind, W_bind, lift, f_write.
  destruct (pack v); simpl; eauto.
Qed.

Lemma bind_mkW_ok {A B} (a : A) bs (k : A → W B) :
  mkW (Ok a) bs ≫= k = mkW (res (k a)) (bs ++ out (k a)).
Proof. reflexivity. Qed.

Lemma bind_mkW_raise {A B} e bs (k : A → W B) :
  mkW (Raise e) bs ≫= k = mkW (Raise e) bs.
Proof. reflexivity. Qed.

Lemma lift_write_ok bs : lift (Ok bs) ≫= (fun bs => f_write bs) = mkW (Ok tt) bs.
Proof. reflexivity. Qed.

Lemma lift_write_raise e :
  lift (Raise e) ≫= (fun bs => f_write bs) = mkW (Raise e) [].
Proof. reflexivity. Qed.

(** A loop that packs and writes each item emits the encodings of a
    prefix of the items: all of them, unless packing raises. *)
Lemma for_each_emit {A} (pack : A → result (list Z)) (enc : A → list Z) xs :
  (∀ a bs, pack a = Ok bs → bs = enc a) →
  ∃ ys, ys `prefix_of` xs
        ∧ out (for_each (fun a => bs ← lift (pack a); f_write bs) xs) = ys ≫= enc
        ∧ (if is_ok (res (for_each (fun a => bs ← lift (pack a); f_write bs) xs))
           then ys = xs else True).
Proof.
  intros Henc. induction xs as [|x xs (ys & Hpre & Hout & Hres)].
  - exists []. done.
  - cbn [for_each].
    destruct (pack x) as [bs|e] eqn:Hp.
    + rewrite lift_write_ok, bind_mkW_ok. cbn [res out].
      exists (x :: ys). split; [by apply prefix_cons|].
      rewrite (Henc _ _ Hp) in *. rewrite Hout. split; [done|].
      destruct (is_ok _); [by subst|done].
    + rewrite lift_write_raise, bind_mkW_raise.
      exists []. split; [apply prefix_nil|done].
Qed.

Lemma for_each_emit_all {A} (pack : A → result (list Z)) (enc : A → list Z) xs :
  (∀ a, a ∈ xs → pack a = Ok (enc a)) →
  for_each (fun a => bs ← lift (pack a); f_write bs) xs
  = mkW (Ok tt) (xs ≫= enc).
Proof.
  induction xs as [|x xs IH]; intros H; [done|].
  cbn [for_each].
  rewrite IH by (intros a Ha; apply H; by right).
  rewrite (H x) by left. by rewrite lift_write_ok, bind_mkW_ok.
Qed.

Lemma pack2_inv p1 p2 a b bs :
  pack2 p1 p2 a b = Ok bs → ∃ x y, p1 a = Ok x ∧ p2 b = Ok y ∧ bs = x ++ y.
Proof.
  unfold pack2. destruct (p1 a) as [x|]; simpl; [|done].
  destruct (p2 b) as [y|]; simpl; [|done]. intros [= <-]. eauto.
Qed.

(** ** Unicode to glyph map *)

(** C7. For every unicode map, in any order and with or without
    duplicates, the entries written after the count are an initial part
    [es] of the map sorted by code point (the whole of it when nothing
    raises), and their code points are in non-decreasing order. *)
Theorem unicode_map_codepoints_nondecreasing (m : list (Z * Z)) :
  let w := write_clm_unicode_glyph_map m in
  ∃ es : list (Z * Z),
    ((out w = [] ∧ es = [])
     ∨ out w = be_octets 2 (Z.of_nat (length m)) ++ (es ≫= encode_entry))
    ∧ StronglySorted (fun a b => a.1 ≤ b.1) es
    ∧ es `prefix_of` sorted fst m
    ∧ sorted fst m ≡ₚ m
    ∧ (if is_ok (res w) then es = sorted fst m else True).
Proof.
  cbv zeta. unfold write_clm_unicode_glyph_map.
  rewrite (for_each_ext _
    (fun a => bs ← lift (pack2 pack_I pack_H a.1 a.2); f_write bs))
    by (by intros [??] _).
  destruct (for_each_emit (fun a => pack2 pack_I pack_H a.1 a.2) encode_entry
              (sorted fst m)) as (ys & Hpre & Hout & Hres).
  { intros [cp gid] bs (x & y & Hx & Hy & ->)%pack2_inv.
    apply pack_int_inv in Hx as [_ ->]. apply pack_int_inv in Hy as [_ ->].
    done. }
  destruct (write_packed_cases pack_H (Z.of_nat (length m)))
    as [(bs & Hp & ->)|(e & Hp & ->)].
  - exists ys. apply pack_int_inv in Hp as [_ ->].
    rewrite bind_mkW_ok. cbn [res out]. rewrite Hout.
    split; [by right|]. split.
    { destruct Hpre as [k Hk]. pose proof (sorted_sorted fst m) as Hs.
      rewrite Hk in Hs. by apply StronglySorted_app_1_l in Hs. }
    split; [done|]. split; [apply sorted_perm|done].
  - exists []. rewrite bind_mkW_raise. cbn [res out is_ok].
    split; [by left|]. split; [constructor|].
    split; [apply prefix_nil|]. split; [apply sorted_perm|done].
Qed.

(** ** The header *)

Lemma out_bind_ok {A B} (a : A) bs (k : A → W B) :
  out (mkW (Ok a) bs ≫= k) = bs ++ out (k a).
Proof. reflexivity. Qed.

(** C8. Whatever the font and the two flags, the output starts with the
    three octets of [c], [l], [m], then the major version 2 on 16 bits,
    then one octet for the minor version, 2 with glyph paths and 1
    without, then one octet for the math flag. *)
Theorem output_begins_with_header (font : font_data)
    (is_math_font have_glyph_path : bool) :
  ∃ rest,
    out (parse_otf font is_math_font have_glyph_path)
    = [99; 108; 109] ++ [0; 2] ++ [if have_glyph_path then 2 else 1]
      ++ [if is_math_font then 1 else 0] ++ rest.
Proof.
  unfold parse_otf.
  replace (lift (b ← bytes_ascii "c"; pack_c b)) with (mkW (Ok [99]) [])
    by reflexivity.
  replace (lift (b ← bytes_ascii "l"; pack_c b)) with (mkW (Ok [108]) [])
    by reflexivity.
  replace (lift (b ← bytes_ascii "m"; pack_c b)) with (mkW (Ok [109]) [])
    by reflexivity.
  replace (write_packed pack_H 2) with (mkW (Ok tt) [0; 2]) by reflexivity.
  replace (write_packed pack_B (if have_glyph_path then 2 else 1))
    with (mkW (Ok tt) [if have_glyph_path then 2 else 1])
    by (by destruct have_glyph_path).
  unfold f_write, pack_bool.
  repeat (rewrite out_bind_ok; cbv beta).
  eexists. cbn [app]. reflexivity.
Qed.

(** ** The command line *)

Lemma main_usage argv :
  (length argv < 4)%nat → main argv = Ok PrintUsage.
Proof.
  intros H. unfold main.
  destruct (Z.of_nat (length argv) <? 4) eqn:E; [done|].
  apply Z.ltb_ge in E. lia.
Qed.

(** C9 (fails on the code). With the script name and three arguments,
    one fewer than the four required, [main] neither prints the usage
    text nor returns: reading [sys.argv[4]] raises [IndexError]. With
    fewer arguments still it prints the usage text. *)
Theorem main_with_three_arguments_raises (script a1 a2 a3 : string) :
  main [script; a1; a2; a3] = Raise IndexError
  ∧ main [script; a1; a2] = Ok PrintUsage.
Proof. split; reflexivity. Qed.

(** ** Kerning pairs *)

(** C10. The kerning list [read_kern] builds for a glyph holds exactly
    the pairs of its kerning subtables whose horizontal advance
    adjustment is not zero; a pair with the value 0 is not in it. *)
Theorem read_kern_drops_zero_values (getPosSub : string → list pair_pos)
    (kern_subtable_names : iterable string) :
  let items := (drain (read_kern getPosSub kern_subtable_names).1).1 in
  let infos := (drain kern_subtable_names).1 ≫= getPosSub in
  Forall (fun p => p.2 ≠ 0) items
  ∧ items = (fun kern_info => (pp_other kern_info, pp_dx_adv1 kern_info))
            <$> List.filter (fun kern_info => negb (pp_dx_adv1 kern_info =? 0))
                            infos.
Proof.
  simpl. unfold read_kern, fmap_list.
  destruct (drain kern_subtable_names) as [names after]. simpl.
  split; [|done].
  apply Forall_fmap, Forall_forall. intros kern_info Hin. simpl.
  apply list_elem_of_In, filter_In in Hin as [_ Hin].
  apply negb_true_iff, Z.eqb_neq in Hin. done.
Qed.

Lemma count_octets_out n : out (write_packed pack_H (Z.of_nat n)) = count_octets n.
Proof.
  unfold count_octets, write_packed, pack_H, pack_int.
  replace (0 <=? Z.of_nat n) with true by (symmetry; apply Z.leb_le; lia).
  simpl. by destruct (Z.of_nat n <=? 65535).
Qed.

(** C2 (fails on the code). The kerning list of a glyph is the [map]
    object of [read_kern]. [write_kerns] counts it with [list(kerns)],
    which leaves it empty: the section is the count alone, and no pair
    follows. For the glyph with the one pair (B, -50) the output is the
    count 1 and nothing else, not 1 followed by (2, -50). *)
Theorem write_kerns_writes_count_only (glyph_name_id_map : gmap string Z)
    (getPosSub : string → list pair_pos) (kern_subtable_names : iterable string) :
  let kerns := (read_kern getPosSub kern_subtable_names).1 in
  out (write_kerns glyph_name_id_map kerns)
  = count_octets (length (drain kerns).1)
  ∧ (read_kern example_getPosSub (PyIter ["kern-2"%string])).1
    = PyIter [("B"%string, -50)]
  ∧ write_kerns example_ids (PyIter [("B"%string, -50)]) = mkW (Ok tt) [0; 1].
Proof.
  simpl. split; [|by vm_compute].
  unfold read_kern, fmap_list.
  destruct (drain kern_subtable_names) as [names after]. simpl.
  unfold write_kerns. simpl.
  destruct (write_packed_cases pack_H
    (Z.of_nat (length ((fun kern_info => (pp_other kern_info, pp_dx_adv1 kern_info))
       <$> List.filter (fun kern_info => negb (pp_dx_adv1 kern_info =? 0))
             (names ≫= getPosSub))))) as [(bs & Hp & Hw)|(e & Hp & Hw)].
  - rewrite <- count_octets_out, Hw. unfold mbind, W_bind. simpl.
    by rewrite app_nil_r.
  - rewrite <- count_octets_out, Hw. done.
Qed.

(** ** Kerning class tables *)

(** The [map] object built by the first stage of [write_classes] has no
    length: the second stage raises before anything is written. *)
Lemma write_classes_raises glyph_name_id_map classes :
  write_classes glyph_name_id_map classes = mkW (Raise TypeError) [].
Proof. by destruct classes. Qed.

(** With the tables in a list the loop is entered, and stops in the
    first table. *)
Lemma write_clm_kerning_class_of_list glyph_name_id_map table tables :
  let w := write_clm_kerning_class (PySeq (table :: tables)) glyph_name_id_map in
  out w = count_octets (S (length tables)) ∧ is_ok (res w) = false.
Proof.
  cbv zeta. unfold write_clm_kerning_class. cbn [drain fst for_each].
  destruct table as [[left_ right_] value]. cbv beta iota.
  rewrite !write_classes_raises, !bind_mkW_raise.
  rewrite <- count_octets_out. cbn [length].
  destruct (write_packed_cases pack_H (Z.of_nat (S (length tables))))
    as [(bs & Hp & Hw)|(e & Hp & Hw)]; rewrite Hw.
  - rewrite bind_mkW_ok. cbn [res out]. by rewrite app_nil_r.
  - by rewrite bind_mkW_raise.
Qed.

(** C1 (fails on the code). The tables reach [write_clm_kerning_class]
    as the [map] object of [read_kerning_class]. Counting them with
    [list(kerning_classes)] leaves the object empty, so the loop over the
    tables has nothing to visit: for a font with K tables the output is
    the count K and no table. The font with the one table of the
    example yields the two octets of the count 1. *)
Theorem kerning_class_tables_not_written (font : font_lookups)
    (glyph_name_id_map : gmap string Z) :
  let kerning_classes := read_kerning_class font in
  out (write_clm_kerning_class kerning_classes glyph_name_id_map)
  = count_octets (length (drain kerning_classes).1)
  ∧ (drain (read_kerning_class example_font)).1 = [example_table]
  ∧ write_clm_kerning_class (read_kerning_class example_font) example_ids
    = mkW (Ok tt) [0; 1].
Proof.
  simpl. split; [|by vm_compute].
  unfold write_clm_kerning_class, read_kerning_class. simpl.
  rewrite <- count_octets_out.
  destruct (write_packed_cases pack_H (Z.of_nat (length (getKerningClass font <$>
    List.filter (isKerningClass font)
      (List.filter
         (fun lookup_name => match getLookupInfo font lookup_name with
                             | Some info => String.eqb info "gpos_pair"
                             | None => false
                             end) (gpos_lookups font) ≫= getLookupSubtables font)))))
    as [(bs & Hp & Hw)|(e & Hp & Hw)]; rewrite Hw.
  - unfold mbind, W_bind. simpl. by rewrite app_nil_r.
  - done.
Qed.

(** ** The value matrix of a kerning class table *)

Lemma W_bind_assoc {A B C} (m : W A) (k : A → W B) (h : B → W C) :
  (m ≫= k) ≫= h = m ≫= (fun a => k a ≫= h).
Proof.
  unfold mbind, W_bind. destruct m as [[a|e] o]; simpl; [|done].
  destruct (k a) as [[b|e] o']; simpl; [|done].
  by rewrite app_assoc.
Qed.

Lemma W_ret_bind {A B} (a : A) (k : A → W B) : mret a ≫= k = k a.
Proof. unfold mbind, W_bind, mret, W_ret. simpl. by destruct (k a). Qed.

Lemma for_each_app {A} (f : A → W unit) l1 l2 :
  for_each f (l1 ++ l2) = (for_each f l1;; for_each f l2).
Proof.
  induction l1 as [|x l1 IH]; cbn [app for_each].
  - by rewrite W_ret_bind.
  - by rewrite IH, W_bind_assoc.
Qed.

Lemma enum_from_cons {A} off (x : A) xs :
  enum_from off (x :: xs) = (Z.of_nat off, x) :: enum_from (S off) xs.
Proof.
  unfold enum_from. cbn [imap]. rewrite Nat.add_0_r. f_equal.
  apply imap_ext. intros i y _. simpl. do 2 f_equal. lia.
Qed.

Lemma enum_from_app {A} off (xs ys : list A) :
  enum_from off (xs ++ ys) = enum_from off xs ++ enum_from (off + length xs) ys.
Proof.
  revert off. induction xs as [|x xs IH]; intros off; cbn [app length].
  - by rewrite Nat.add_0_r.
  - rewrite !enum_from_cons, IH. cbn [app]. do 3 f_equal. lia.
Qed.

Lemma write_value_row_0 cols i v :
  (i < cols)%nat → write_value (Z.of_nat cols) (Z.of_nat i, v) = mret tt.
Proof.
  intros Hi. unfold write_value. cbv beta iota.
  by replace (Z.of_nat i <? Z.of_nat cols) with true
    by (symmetry; apply Z.ltb_lt; lia).
Qed.

(** Row 0: every index is below the column count. *)
Lemma values_skipped cols off l :
  (off + length l ≤ cols)%nat →
  for_each (write_value (Z.of_nat cols)) (enum_from off l) = mret tt.
Proof.
  revert off. induction l as [|x l IH]; intros off H; [done|].
  rewrite enum_from_cons. cbn [for_each length] in *.
  rewrite write_value_row_0, W_ret_bind by lia. apply IH. lia.
Qed.

Lemma write_value_kept cols i v :
  (1 ≤ cols)%nat → (cols ≤ i)%nat → Z.of_nat i `mod` Z.of_nat cols ≠ 0 → -32768 ≤ v ≤ 32767 →
  write_value (Z.of_nat cols) (Z.of_nat i, v) = mkW (Ok tt) (be_octets 2 v).
Proof.
  intros Hc Hi Hm Hv. unfold write_value. cbv beta iota.
  replace (Z.of_nat i <? Z.of_nat cols) with false
    by (symmetry; apply Z.ltb_ge; lia).
  unfold py_mod.
  replace (Z.of_nat cols =? 0) with false by (symmetry; apply Z.eqb_neq; lia).
  unfold lift. rewrite bind_mkW_ok. cbn [res out app].
  replace (Z.of_nat i `mod` Z.of_nat cols =? 0) with false
    by (symmetry; by apply Z.eqb_neq).
  unfold write_packed, pack_h. rewrite pack_int_ok by done.
  reflexivity.
Qed.

Lemma write_value_column_0 cols r v :
  (1 ≤ cols)%nat →
  write_value (Z.of_nat cols) (Z.of_nat (r * cols), v) = mret tt.
Proof.
  intros Hc. unfold write_value. cbv beta iota.
  destruct (Z.of_nat (r * cols) <? Z.of_nat cols); [done|].
  unfold py_mod.
  replace (Z.of_nat cols =? 0) with false by (symmetry; apply Z.eqb_neq; lia).
  unfold lift. rewrite bind_mkW_ok. cbn [res out app].
  rewrite Nat2Z.inj_mul, Z_mod_mult. reflexivity.
Qed.

(** Cells of a later row, past its column 0: all written. *)
Lemma values_written cols off l :
  (1 ≤ cols)%nat →
  (∀ j, (j < length l)%nat →
        (cols ≤ off + j)%nat ∧ Z.of_nat (off + j) `mod` Z.of_nat cols ≠ 0) →
  Forall (fun v => -32768 ≤ v ≤ 32767) l →
  for_each (write_value (Z.of_nat cols)) (enum_from off l)
  = mkW (Ok tt) (l ≫= be_octets 2).
Proof.
  intros Hc. revert off. induction l as [|x l IH]; intros off H Hr; [done|].
  rewrite enum_from_cons. cbn [for_each].
  inversion Hr as [|?? Hx Hl]; subst.
  destruct (H 0%nat) as [H1 H2]; [cbn [length]; lia|].
  rewrite Nat.add_0_r in *.
  rewrite write_value_kept, bind_mkW_ok by done.
  rewrite IH; [done| |done].
  intros j Hj. replace (S off + j)%nat with (off + S j)%nat by lia.
  apply H. cbn [length]. lia.
Qed.

(** A row after row 0: column 0 is skipped, the rest is written. *)
Lemma later_row_written cols r0 row :
  (1 ≤ cols)%nat → (1 ≤ r0)%nat → length row = cols →
  Forall (fun v => -32768 ≤ v ≤ 32767) row →
  for_each (write_value (Z.of_nat cols)) (enum_from (r0 * cols) row)
  = mkW (Ok tt) (drop 1 row ≫= be_octets 2).
Proof.
  intros Hc Hr0 Hlen Hr.
  destruct row as [|x row]; [simpl in Hlen; lia|].
  rewrite enum_from_cons. cbn [for_each]. rewrite skipn_cons, drop_0.
  rewrite write_value_column_0, W_ret_bind by done.
  cbn [length] in Hlen. inversion Hr; subst.
  apply values_written; [lia| |done].
  intros j Hj. split; [nia|].
  replace (Z.of_nat (S (r0 * S (length row)) + j))
    with (Z.of_nat (S j) + Z.of_nat r0 * Z.of_nat (S (length row))) by lia.
  rewrite Z_mod_plus_full, Z.mod_small by lia. lia.
Qed.

Lemma later_rows_written cols rows r0 value :
  (1 ≤ cols)%nat → (1 ≤ r0)%nat →
  length value = (rows * cols)%nat →
  Forall (fun v => -32768 ≤ v ≤ 32767) value →
  for_each (write_value (Z.of_nat cols)) (enum_from (r0 * cols) value)
  = mkW (Ok tt) (concat (drop 1 <$> rows_of cols rows value) ≫= be_octets 2).
Proof.
  intros Hc. revert r0 value.
  induction rows as [|rows IH]; intros r0 value Hr0 Hlen Hr.
  - destruct value; [done|]. simpl in Hlen. lia.
  - rewrite <- (take_drop cols value) at 1.
    rewrite enum_from_app, for_each_app. cbn [Nat.mul] in Hlen.
    assert (length (take cols value) = cols) as Htake
      by (rewrite length_take; lia).
    rewrite Htake.
    replace (r0 * cols + cols)%nat with (S r0 * cols)%nat by lia.
    rewrite IH; [|lia|rewrite length_drop; lia|by apply Forall_drop].
    rewrite later_row_written; [|done|done|done|by apply Forall_take].
    rewrite bind_mkW_ok. cbn [rows_of res out].
    rewrite fmap_cons. cbn [concat]. by rewrite bind_app.
Qed.

Lemma rows_of_length cols rows value :
  length (rows_of cols rows value) = rows.
Proof.
  revert value. induction rows as [|rows IH]; intros value; [done|].
  cbn [rows_of length]. by rewrite IH.
Qed.

Lemma rows_of_row_length cols rows value :
  length value = (rows * cols)%nat →
  Forall (fun row => length row = cols) (rows_of cols rows value).
Proof.
  revert value. induction rows as [|rows IH]; intros value Hlen; [constructor|].
  cbn [rows_of Nat.mul] in *. constructor.
  - rewrite length_take. lia.
  - apply IH. rewrite length_drop. lia.
Qed.

Lemma concat_tails_length cols (rs : list (list Z)) :
  Forall (fun row => length row = cols) rs →
  length (concat (drop 1 <$> rs)) = (length rs * (cols - 1))%nat.
Proof.
  induction 1 as [|row rs Hrow _ IH]; [done|].
  rewrite fmap_cons. cbn [concat length].
  rewrite length_app, length_drop, IH, Hrow. lia.
Qed.

(** The loop, run on a matrix of [rows] by [cols] values that fit 16
    bits, writes the cells outside row 0 and column 0, row by row, and
    nothing else: [(rows - 1) * (cols - 1)] cells. *)
Lemma value_matrix_written rows cols value :
  (1 ≤ rows)%nat → (1 ≤ cols)%nat →
  length value = (rows * cols)%nat →
  Forall (fun v => -32768 ≤ v ≤ 32767) value →
  write_value_matrix (Z.of_nat cols) value
  = mkW (Ok tt) (inner_cells rows cols value ≫= be_octets 2)
  ∧ length (inner_cells rows cols value) = ((rows - 1) * (cols - 1))%nat.
Proof.
  intros Hrows Hc Hlen Hr. destruct rows as [|rows]; [lia|].
  unfold inner_cells. cbn [rows_of Nat.mul] in *. rewrite skipn_cons, drop_0.
  split.
  - unfold write_value_matrix. change (enumerate value) with (enum_from 0 value).
    rewrite <- (take_drop cols value) at 1.
    rewrite enum_from_app, for_each_app.
    assert (length (take cols value) = cols) as Htake
      by (rewrite length_take; apply Nat.min_l; lia).
    rewrite (values_skipped cols 0 (take cols value)) by (rewrite Htake; lia).
    rewrite W_ret_bind, Htake.
    replace (0 + cols)%nat with (1 * cols)%nat by lia.
    apply later_rows_written; [done|done| |by apply Forall_drop].
    rewrite length_drop. lia.
  - rewrite (concat_tails_length cols), rows_of_length; [f_equal; lia|].
    apply rows_of_row_length. rewrite length_drop. lia.
Qed.

(** C3 (fails on the code). No value of a kerning class table is ever
    written. However the tables are passed, [write_clm_kerning_class]
    writes their count and nothing else: an iterator is empty when the
    loop over the tables starts, and with a list the first
    [write_classes] of the first table raises, ahead of the loop over
    the values. For the table of the example, with the matrix
    [[0, 0], [0, 5]], the output is the count 1 and the value 5 is not
    written; the loop over the values, run alone on this matrix, writes
    the value 5 only, as [value_matrix_written] shows for every matrix. *)
Theorem value_matrix_never_written (kerning_classes : iterable kerning_class)
    (glyph_name_id_map : gmap string Z) :
  out (write_clm_kerning_class kerning_classes glyph_name_id_map)
  = count_octets (length (drain kerning_classes).1)
  ∧ write_clm_kerning_class (PyIter [example_table]) example_ids
    = mkW (Ok tt) [0; 1]
  ∧ write_clm_kerning_class (PySeq [example_table]) example_ids
    = mkW (Raise TypeError) [0; 1]
  ∧ write_value_matrix 2 [0; 0; 0; 5] = mkW (Ok tt) [0; 5].
Proof.
  split; [|by vm_compute].
  destruct kerning_classes as [[|table tables]|tables].
  - reflexivity.
  - apply write_clm_kerning_class_of_list.
  - unfold write_clm_kerning_class. cbn [drain fst snd for_each].
    rewrite <- count_octets_out.
    destruct (write_packed_cases pack_H (Z.of_nat (length tables)))
      as [(bs & Hp & Hw)|(e & Hp & Hw)]; rewrite Hw.
    + rewrite bind_mkW_ok. cbn [res out]. by rewrite app_nil_r.
    + by rewrite bind_mkW_raise.
Qed.

(** ** Ligatures *)

Lemma node_ind (P : node → Prop) :
  (∀ g c l ch, Forall P ch → P (Node g c l ch)) → ∀ n, P n.
Proof.
  intros H. fix IH 1. intros [g c l ch]. apply H.
  induction ch as [|n ch IHch]; constructor; [apply IH|exact IHch].
Qed.

Lemma forest_ind (P : list node → Prop) :
  P [] → (∀ n f, P (children n) → P f → P (n :: f)) → ∀ f, P f.
Proof.
  intros Hnil Hcons.
  assert (∀ n, P (children n)) as Hch.
  { induction n as [g c l ch IH] using node_ind. simpl.
    induction IH as [|n ch Hn _ IHch]; [done|]. by apply Hcons. }
  induction f as [|n f IH]; [done|]. by apply Hcons.
Qed.

Lemma find_first_with_child g c k g' nodes :
  (∀ n, glyph (k n) = glyph n) →
  find_first (with_child g c k nodes) (fun x => glyph x =? g')
  = if decide (g' = g)
    then Some (k (default (Node g c (-1) [])
                          (find_first nodes (fun x => glyph x =? g))))
    else find_first nodes (fun x => glyph x =? g').
Proof.
  intros Hk. induction nodes as [|x xs IH]; simpl.
  - rewrite Hk. simpl. destruct (decide (g' = g)) as [->|Hne].
    + by rewrite Z.eqb_refl.
    + destruct (g =? g') eqn:E; [apply Z.eqb_eq in E; congruence|done].
  - destruct (glyph x =? g) eqn:Ex; simpl.
    + apply Z.eqb_eq in Ex. rewrite Hk, Ex.
      destruct (decide (g' = g)) as [->|Hne].
      * by rewrite Z.eqb_refl.
      * destruct (g =? g') eqn:E; [apply Z.eqb_eq in E; congruence|done].
    + rewrite IH. destruct (decide (g' = g)) as [->|Hne].
      * by rewrite Ex.
      * done.
Qed.

Lemma liga_at_nil f : liga_at [] f = None.
Proof. reflexivity. Qed.

Lemma liga_at_cons g q f :
  liga_at (g :: q) f
  = n ← find_first f (fun x => glyph x =? g);
    match q with
    | [] => Some (liga n)
    | _ :: _ => liga_at q (children n)
    end.
Proof.
  unfold liga_at. simpl. destruct (find_first _ _) as [n|]; simpl; [|done].
  by destruct q.
Qed.

Lemma liga_after_cons g p l old q' :
  liga_after (g :: p) l old (g :: q')
  = match q' with
    | [] => if decide (p = []) then Some l else Some (default (-1) old)
    | _ :: _ => liga_after p l old q'
    end.
Proof.
  unfold liga_after. destruct q' as [|g' q'].
  - destruct (decide (p = [])) as [->|Hp].
    + by rewrite decide_True.
    + rewrite decide_False by congruence.
      rewrite decide_True; [done|].
      split; [done|]. exists p. done.
  - destruct (decide (g' :: q' = p)) as [<-|Hp].
    + by rewrite decide_True.
    + rewrite decide_False by congruence.
      destruct (decide (g' :: q' ≠ [] ∧ g' :: q' `prefix_of` p)) as [[_ Hq]|Hq].
      * rewrite decide_True; [done|]. split; [done|]. by apply prefix_cons.
      * rewrite decide_False; [done|]. intros [_ Hq'%prefix_cons_inv_2].
        apply Hq. done.
Qed.

Lemma liga_after_other g g' p l old q' :
  g' ≠ g → liga_after (g :: p) l old (g' :: q') = old.
Proof.
  intros Hne. unfold liga_after.
  rewrite decide_False by congruence.
  rewrite decide_False; [done|]. intros [_ H%prefix_cons_inv_1]. done.
Qed.

(** The ligatures of the forest after [add_path]. *)
Lemma liga_at_add_path g c rest l f q :
  liga_at q (add_path g c rest l f)
  = liga_after (g :: rest.*1) l (liga_at q f) q.
Proof.
  revert g c f q. induction rest as [|[g2 c2] rest IH]; intros g c f q.
  - destruct q as [|g' q']; [done|].
    rewrite !liga_at_cons. cbn [add_path].
    rewrite find_first_with_child by done.
    destruct (decide (g' = g)) as [->|Hne].
    + rewrite liga_after_cons. simpl.
      destruct (find_first f _) as [n|]; simpl.
      * destruct q'; [done|]. unfold liga_after.
        rewrite decide_False by done.
        rewrite decide_False; [done|]. intros [_ H%prefix_nil_inv]. done.
      * destruct q'; [done|]. done.
    + by rewrite liga_after_other.
  - destruct q as [|g' q']; [done|].
    rewrite !liga_at_cons. cbn [add_path].
    rewrite find_first_with_child by done.
    destruct (decide (g' = g)) as [->|Hne].
    + rewrite fmap_cons, liga_after_cons. simpl.
      destruct (find_first f _) as [n|]; simpl.
      * destruct q' as [|g3 q3]; [done|]. by rewrite IH.
      * destruct q' as [|g3 q3]; [done|]. by rewrite IH.
    + by rewrite liga_after_other.
Qed.

Lemma liga_after_commute p1 l1 p2 l2 old q :
  (p1 = p2 → l1 = l2) →
  liga_after p1 l1 (liga_after p2 l2 old q) q
  = liga_after p2 l2 (liga_after p1 l1 old q) q.
Proof.
  intros Hsame. unfold liga_after.
  destruct (decide (q = p1)) as [E1|H1], (decide (q = p2)) as [E2|H2];
    repeat case_decide; simpl; try done.
  rewrite Hsame; [done|congruence].
Qed.

Lemma rule_path_glyphs m rule g c rest :
  rule_glyphs m rule.1 = Ok ((g, c) :: rest) →
  rule_path m rule = Some (g :: rest.*1).
Proof. unfold rule_path. by intros ->. Qed.

(** The ligatures after a rule depend on the ligatures before it only. *)
Lemma liga_at_add_rule m rule f q :
  liga_at q (add_rule m f rule)
  = match rule_path m rule with
    | Some (g :: p) => liga_after (g :: p) rule.2 (liga_at q f) q
    | _ => liga_at q f
    end.
Proof.
  unfold add_rule, rule_path.
  destruct (rule_glyphs m rule.1) as [[|[g c] rest]|]; [done| |done].
  apply liga_at_add_path.
Qed.

Lemma add_rule_same_ligas m rule f f' :
  same_ligas f f' → same_ligas (add_rule m f rule) (add_rule m f' rule).
Proof.
  intros H q. rewrite !liga_at_add_rule, (H q). done.
Qed.

Lemma add_rule_commute m r1 r2 f :
  (∀ p, rule_path m r1 = Some p → rule_path m r2 = Some p → r1.2 = r2.2) →
  same_ligas (add_rule m (add_rule m f r1) r2) (add_rule m (add_rule m f r2) r1).
Proof.
  intros Hsame q. rewrite !liga_at_add_rule.
  destruct (rule_path m r1) as [[|g1 p1]|] eqn:E1; try done;
    destruct (rule_path m r2) as [[|g2 p2]|] eqn:E2; try done.
  symmetry. apply liga_after_commute. intros Hp. apply (Hsame (g1 :: p1)).
  - done.
  - by rewrite Hp.
Qed.

Lemma foldl_add_rule_same_ligas m ligas f f' :
  same_ligas f f' →
  same_ligas (foldl (add_rule m) f ligas) (foldl (add_rule m) f' ligas).
Proof.
  revert f f'. induction ligas as [|r ligas IH]; intros f f' H; [done|].
  simpl. by apply IH, add_rule_same_ligas.
Qed.

Lemma no_conflict_perm m ligas ligas' :
  ligas ≡ₚ ligas' → no_conflict m ligas → no_conflict m ligas'.
Proof.
  intros Hp H r1 r2 p H1 H2. apply H; by rewrite Hp.
Qed.

(** Adding the rules in another order gives the same ligatures. *)
Lemma foldl_add_rule_perm m ligas ligas' :
  ligas ≡ₚ ligas' → no_conflict m ligas →
  ∀ f f', same_ligas f f' →
    same_ligas (foldl (add_rule m) f ligas) (foldl (add_rule m) f' ligas').
Proof.
  induction 1 as [|r l l' Hp IH|r1 r2 l|l l' l'' Hp1 IH1 Hp2 IH2];
    intros Hnc f f' Hf.
  - done.
  - simpl. apply IH.
    + intros r1 r2 p H1 H2. apply Hnc; by right.
    + by apply add_rule_same_ligas.
  - simpl. apply foldl_add_rule_same_ligas. intros q.
    rewrite <- (add_rule_commute m r1 r2 f).
    + by apply add_rule_same_ligas, add_rule_same_ligas.
    + intros p H1 H2. apply (Hnc r1 r2 p); [right; left|left|done|done].
  - intros q. rewrite (IH1 Hnc f f' Hf q).
    apply IH2; [by eapply no_conflict_perm|done].
Qed.

Lemma distinct_keys_children n :
  distinct_keys n →
  NoDup (glyph <$> children n) ∧ Forall distinct_keys (children n).
Proof. by intros [g c l ch H1 H2]. Qed.

Lemma with_child_glyphs g c k nodes :
  (∀ n, glyph (k n) = glyph n) →
  glyph <$> with_child g c k nodes
  = if decide (g ∈ glyph <$> nodes) then glyph <$> nodes
    else (glyph <$> nodes) ++ [g].
Proof.
  intros Hk. induction nodes as [|x xs IH].
  - cbn [with_child]. rewrite fmap_cons, Hk.
    destruct (decide (g ∈ glyph <$> [])) as [Hin|Hin]; [|done].
    by apply elem_of_nil in Hin.
  - cbn [with_child]. destruct (glyph x =? g) eqn:Ex.
    + apply Z.eqb_eq in Ex. rewrite !fmap_cons, Hk.
      destruct (decide (g ∈ glyph x :: (glyph <$> xs))) as [Hin|Hin]; [done|].
      exfalso. apply Hin. rewrite Ex. left.
    + apply Z.eqb_neq in Ex. rewrite !fmap_cons, IH.
      destruct (decide (g ∈ glyph <$> xs)) as [Hin|Hin];
        destruct (decide (g ∈ glyph x :: (glyph <$> xs))) as [Hin'|Hin'].
      * done.
      * exfalso. apply Hin'. by right.
      * apply elem_of_cons in Hin' as [?|?]; congruence.
      * done.
Qed.

Lemma with_child_Forall (P : node → Prop) g c k nodes :
  (∀ n, P n → P (k n)) → P (k (Node g c (-1) [])) →
  Forall P nodes → Forall P (with_child g c k nodes).
Proof.
  intros Hk Hnew. induction 1 as [|x xs Hx Hxs IH]; simpl.
  - by constructor.
  - destruct (glyph x =? g); constructor; auto.
Qed.

(** [add_node] keeps the glyph ids of the children of a node distinct. *)
Lemma add_path_distinct g c rest l f :
  NoDup (glyph <$> f) → Forall distinct_keys f →
  NoDup (glyph <$> add_path g c rest l f)
  ∧ Forall distinct_keys (add_path g c rest l f).
Proof.
  revert g c f. induction rest as [|[g2 c2] rest IH]; intros g c f Hnd Hall;
    cbn [add_path]; (split;
      [ rewrite with_child_glyphs by done; case_decide; [done|];
        apply NoDup_app; split; [done|]; split;
        [ intros x Hx ->%list_elem_of_singleton; done | apply NoDup_singleton ]
      | apply with_child_Forall; [| |done] ]).
  - intros n [Hn1 Hn2]%distinct_keys_children. by constructor.
  - constructor; [apply NoDup_nil_2|constructor].
  - intros n [Hn1 Hn2]%distinct_keys_children.
    destruct (IH g2 c2 (children n) Hn1 Hn2). by constructor.
  - simpl. destruct (IH g2 c2 [] (NoDup_nil_2) (Forall_nil_2 _)).
    by constructor.
Qed.

Lemma add_rule_distinct m rule f :
  NoDup (glyph <$> f) → Forall distinct_keys f →
  NoDup (glyph <$> add_rule m f rule)
  ∧ Forall distinct_keys (add_rule m f rule).
Proof.
  intros H1 H2. unfold add_rule.
  destruct (rule_glyphs m rule.1) as [[|[g c] rest]|]; [done| |done].
  by apply add_path_distinct.
Qed.

Lemma foldl_add_rule_distinct m ligas f :
  NoDup (glyph <$> f) → Forall distinct_keys f →
  NoDup (glyph <$> foldl (add_rule m) f ligas)
  ∧ Forall distinct_keys (foldl (add_rule m) f ligas).
Proof.
  revert f. induction ligas as [|r ligas IH]; intros f H1 H2; [done|].
  simpl. destruct (add_rule_distinct m r f H1 H2). by apply IH.
Qed.

Lemma glyph_sort_node n : glyph (sort_node n) = glyph n.
Proof. by destruct n. Qed.

Lemma liga_sort_node n : liga (sort_node n) = liga n.
Proof. by destruct n. Qed.

Lemma children_sort_node n :
  children (sort_node n) = sort_children (children n).
Proof. by destruct n. Qed.

Lemma fmap_glyph_sort_node (ch : list node) :
  glyph <$> (sort_node <$> ch) = glyph <$> ch.
Proof.
  rewrite <- list_fmap_compose. apply list_fmap_ext.
  intros i x _. apply glyph_sort_node.
Qed.

Lemma sort_node_sorted n : distinct_keys n → children_sorted (sort_node n).
Proof.
  induction n as [g c l ch IH] using node_ind.
  intros [Hnd Hall]%distinct_keys_children. simpl in *. constructor.
  - apply sorted_strict. by rewrite fmap_glyph_sort_node.
  - rewrite (sorted_perm glyph). apply Forall_fmap.
    rewrite Forall_forall in *. intros x Hx. simpl. auto.
Qed.

Lemma sort_children_sorted f :
  NoDup (glyph <$> f) → Forall distinct_keys f →
  StronglySorted (fun a b => glyph a < glyph b) (sort_children f)
  ∧ Forall children_sorted (sort_children f).
Proof.
  intros Hnd Hall. unfold sort_children. split.
  - apply sorted_strict. by rewrite fmap_glyph_sort_node.
  - rewrite (sorted_perm glyph). apply Forall_fmap.
    eapply Forall_impl; [exact Hall|]. intros x. apply sort_node_sorted.
Qed.

Lemma find_first_fmap_sort_node g f :
  find_first (sort_node <$> f) (fun x => glyph x =? g)
  = sort_node <$> find_first f (fun x => glyph x =? g).
Proof.
  induction f as [|x f IH]; [done|]. simpl.
  rewrite glyph_sort_node. by destruct (glyph x =? g).
Qed.

(** Sorting moves no ligature: a stable sort keeps, for every glyph id,
    the first child that has it. *)
Lemma find_path_sort_children q f :
  find_path q (sort_children f) = sort_node <$> find_path q f.
Proof.
  revert f. induction q as [|g q IH]; intros f; [done|].
  simpl. unfold sort_children at 1.
  rewrite find_first_sorted, find_first_fmap_sort_node.
  destruct (find_first f _) as [n|]; simpl; [|done].
  destruct q; [done|]. by rewrite children_sort_node, IH.
Qed.

Lemma liga_at_sort_children q f : liga_at q (sort_children f) = liga_at q f.
Proof.
  unfold liga_at. rewrite find_path_sort_children.
  destruct (find_path q f) as [n|]; simpl; [|done].
  by rewrite liga_sort_node.
Qed.

Lemma children_sorted_children n :
  children_sorted n →
  StronglySorted (fun a b => glyph a < glyph b) (children n)
  ∧ Forall children_sorted (children n).
Proof. by intros [g c l ch H1 H2]. Qed.

Lemma find_first_above g (f : list node) :
  Forall (fun b => g < glyph b) f →
  find_first f (fun x => glyph x =? g) = None.
Proof.
  induction 1 as [|x f Hx _ IH]; [done|]. simpl.
  destruct (glyph x =? g) eqn:E; [apply Z.eqb_eq in E; lia|done].
Qed.

Lemma liga_at_head n f : liga_at [glyph n] (n :: f) = Some (liga n).
Proof. unfold liga_at. simpl. by rewrite Z.eqb_refl. Qed.

Lemma liga_at_is_Some_elem g f :
  is_Some (liga_at [g] f) → g ∈ glyph <$> f.
Proof.
  unfold liga_at. simpl. induction f as [|x f IH]; simpl.
  - by intros [? ?].
  - destruct (glyph x =? g) eqn:E.
    + apply Z.eqb_eq in E. intros _. rewrite <- E. left.
    + intros H. right. by apply IH.
Qed.

(** Two forests in strictly ascending order at every node, with the
    same ligatures, differ in their names at most. *)
Lemma sorted_forest_unique f :
  ∀ f',
    StronglySorted (fun a b => glyph a < glyph b) f →
    Forall children_sorted f →
    StronglySorted (fun a b => glyph a < glyph b) f' →
    Forall children_sorted f' →
    same_ligas f f' → strip <$> f = strip <$> f'.
Proof.
  induction f as [|n t IHn IHt] using forest_ind;
    intros f' Hs Hc Hs' Hc' Hsame.
  - destruct f' as [|n' t']; [done|].
    specialize (Hsame [glyph n']). by rewrite liga_at_head in Hsame.
  - destruct f' as [|n' t'].
    { specialize (Hsame [glyph n]). by rewrite liga_at_head in Hsame. }
    apply StronglySorted_inv in Hs as [Hst Hn].
    apply StronglySorted_inv in Hs' as [Hst' Hn'].
    apply Forall_cons in Hc as [Hcn Hct].
    apply Forall_cons in Hc' as [Hcn' Hct'].
    assert (glyph n = glyph n') as Hg.
    { pose proof (Hsame [glyph n]) as H1. rewrite liga_at_head in H1.
      pose proof (Hsame [glyph n']) as H2. rewrite liga_at_head in H2.
      assert (glyph n ∈ glyph <$> n' :: t') as Hin1
        by (apply liga_at_is_Some_elem; rewrite <- H1; eauto).
      assert (glyph n' ∈ glyph <$> n :: t) as Hin2
        by (apply liga_at_is_Some_elem; rewrite H2; eauto).
      rewrite fmap_cons, elem_of_cons in Hin1, Hin2.
      destruct Hin1 as [?|Hin1]; [done|].
      destruct Hin2 as [?|Hin2]; [done|].
      apply list_elem_of_fmap in Hin1 as (y1 & Hg1 & Hy1).
      apply list_elem_of_fmap in Hin2 as (y2 & Hg2 & Hy2).
      rewrite Forall_forall in Hn, Hn'.
      specialize (Hn' _ Hy1). specialize (Hn _ Hy2). lia. }
    assert (liga n = liga n') as Hl.
    { pose proof (Hsame [glyph n]) as H1. rewrite liga_at_head in H1.
      rewrite Hg, liga_at_head in H1. congruence. }
    assert (same_ligas (children n) (children n')) as Hch.
    { intros [|g q]; [done|].
      pose proof (Hsame (glyph n :: g :: q)) as H1.
      rewrite liga_at_cons in H1. simpl in H1. rewrite Z.eqb_refl in H1.
      rewrite Hg, liga_at_cons in H1. simpl in H1.
      by rewrite Z.eqb_refl in H1. }
    assert (same_ligas t t') as Ht.
    { intros [|g q]; [done|].
      destruct (decide (g = glyph n)) as [->|Hne].
      - rewrite !liga_at_cons, find_first_above by done.
        rewrite Hg in *. by rewrite find_first_above.
      - pose proof (Hsame (g :: q)) as H1.
        rewrite !liga_at_cons in H1. simpl in H1.
        destruct (glyph n =? g) eqn:E1; [apply Z.eqb_eq in E1; congruence|].
        destruct (glyph n' =? g) eqn:E2; [apply Z.eqb_eq in E2; congruence|].
        by rewrite !liga_at_cons. }
    apply children_sorted_children in Hcn as [Hcn1 Hcn2].
    apply children_sorted_children in Hcn' as [Hcn1' Hcn2'].
    rewrite !fmap_cons. f_equal.
    + destruct n, n'. simpl in *. subst. f_equal. by apply IHn.
    + by apply IHt.
Qed.

Lemma for_each_fmap {A B} (f : B → W unit) (g : A → B) xs :
  for_each f (g <$> xs) = for_each (fun x => f (g x)) xs.
Proof.
  induction xs as [|x xs IH]; [done|].
  rewrite fmap_cons. cbn [for_each]. by rewrite IH.
Qed.

(** [write_node] does not read the names. *)
Lemma write_node_strip n : write_node (strip n) = write_node n.
Proof.
  induction n as [g c l ch IH] using node_ind. cbn [strip write_node].
  rewrite length_fmap, for_each_fmap.
  rewrite (for_each_ext _ write_node); [done|].
  intros x Hx. rewrite Forall_forall in IH. by apply IH.
Qed.

Lemma write_root_same f f' :
  strip <$> f = strip <$> f' →
  write_node (Node 0 (Int 0) (-1) f) = write_node (Node 0 (Int 0) (-1) f').
Proof.
  intros H. rewrite <- (write_node_strip (Node 0 (Int 0) (-1) f)).
  rewrite <- (write_node_strip (Node 0 (Int 0) (-1) f')).
  cbn [strip]. by rewrite H.
Qed.

Lemma build_forest_fold m ligas f0 :
  let step := fun forest '(chars, l) =>
    glyphs ← rule_glyphs m chars; add_node glyphs l forest in
  if forallb (rule_ok m) ligas
  then for_fold step ligas f0 = Ok (foldl (add_rule m) f0 ligas)
  else is_ok (for_fold step ligas f0) = false.
Proof.
  cbv zeta. revert f0. induction ligas as [|[chars l] ligas IH]; intros f0.
  - done.
  - cbn [forallb for_fold foldl]. unfold rule_ok at 1, add_rule at 2.
    cbn [fst snd].
    destruct (rule_glyphs m chars) as [[|[g c] rest]|e]; try done.
    cbn [andb]. apply IH.
Qed.

Lemma forallb_perm {A} (p : A → bool) l l' :
  l ≡ₚ l' → forallb p l = forallb p l'.
Proof.
  induction 1 as [|x l l' _ IH|x y l|l l' l'' _ IH1 _ IH2]; simpl.
  - done.
  - by rewrite IH.
  - by destruct (p x), (p y).
  - congruence.
Qed.

(** C4 (amended). For every list of ligature rules in which no two
    rules give different ligatures to the same sequence of glyph ids,
    and every permutation of the list, [write_ligas] writes the same
    octets for both and fails for both or for neither. *)
Theorem ligature_trie_order_independent (glyph_name_id_map : gmap string Z)
    (ligas ligas' : list (list string * Z)) :
  ligas ≡ₚ ligas' → no_conflict glyph_name_id_map ligas →
  out (write_ligas ligas glyph_name_id_map)
  = out (write_ligas ligas' glyph_name_id_map)
  ∧ is_ok (res (write_ligas ligas glyph_name_id_map))
    = is_ok (res (write_ligas ligas' glyph_name_id_map)).
Proof.
  intros Hperm Hnc. unfold write_ligas, build_forest.
  pose proof (build_forest_fold glyph_name_id_map ligas []) as H.
  pose proof (build_forest_fold glyph_name_id_map ligas' []) as H'.
  cbv zeta in H, H'.
  rewrite <- (forallb_perm _ _ _ Hperm) in H'.
  destruct (forallb (rule_ok glyph_name_id_map) ligas).
  - rewrite H, H'. unfold lift. rewrite !bind_mkW_ok. cbn [app].
    rewrite (write_root_same _
      (sort_children (foldl (add_rule glyph_name_id_map) [] ligas'))); [done|].
    destruct (foldl_add_rule_distinct glyph_name_id_map ligas [])
      as [Hd1 Hd2]; [apply NoDup_nil_2|constructor|].
    destruct (foldl_add_rule_distinct glyph_name_id_map ligas' [])
      as [Hd1' Hd2']; [apply NoDup_nil_2|constructor|].
    destruct (sort_children_sorted _ Hd1 Hd2) as [Hs1 Hs2].
    destruct (sort_children_sorted _ Hd1' Hd2') as [Hs1' Hs2'].
    apply sorted_forest_unique; try done.
    intros q. rewrite !liga_at_sort_children.
    by apply foldl_add_rule_perm.
  - destruct (for_fold _ ligas []) as [f|e]; [done|].
    destruct (for_fold _ ligas' []) as [f'|e']; [done|].
    done.
Qed.

Lemma ligature_trie_order_independent_witness :
  [(["A"; "A"; "B"], 10); (["A"; "A"], 11)]%string
    ≡ₚ [(["A"; "A"], 11); (["A"; "A"; "B"], 10)]%string
  ∧ no_conflict example_ids [(["A"; "A"; "B"], 10); (["A"; "A"], 11)]%string
  ∧ out (write_ligas [(["A"; "A"; "B"], 10); (["A"; "A"], 11)]%string example_ids)
    = out (write_ligas [(["A"; "A"], 11); (["A"; "A"; "B"], 10)]%string example_ids).
Proof.
  assert (no_conflict example_ids
            [(["A"; "A"; "B"], 10); (["A"; "A"], 11)]%string) as Hnc.
  { intros r1 r2 p H1 H2 E1 E2.
    repeat (apply elem_of_cons in H1 as [->|H1]);
      repeat (apply elem_of_cons in H2 as [->|H2]);
      try (by apply elem_of_nil in H1); try (by apply elem_of_nil in H2);
      try reflexivity;
      vm_compute in E1, E2; congruence. }
  split; [apply perm_swap|]. split; [exact Hnc|].
  apply (ligature_trie_order_independent example_ids _ _ (perm_swap _ _ _) Hnc).
Defined.

(** C4, as stated, fails: two rules for the same glyph sequence with
    different ligatures, in one order and in the other. The later rule
    wins, so the ligature written is 11 for one order and 10 for the
    other. *)
Lemma ligature_order_matters :
  [(["A"], 10); (["A"], 11)]%string ≡ₚ [(["A"], 11); (["A"], 10)]%string
  ∧ out (write_ligas [(["A"], 10); (["A"], 11)]%string example_ids)
    ≠ out (write_ligas [(["A"], 11); (["A"], 10)]%string example_ids).
Proof. split; [apply perm_swap|]. vm_compute. discriminate. Qed.

(** ** What the encoders write when nothing is out of range *)

Lemma force_py_map_seq {A B} (f : A → result B) xs :
  force (py_map f (PySeq xs)) = map_result f xs.
Proof.
  unfold force, py_map. cbn [drain fst].
  induction xs as [|x xs IH]; [done|].
  rewrite fmap_cons. cbn [map_result]. rewrite IH.
  change (id (f x)) with (f x). done.
Qed.

(** From a list of pairs, [write_kerns] writes the count and then the
    pairs, sorted by the resolved glyph id. *)
Lemma write_kerns_of_list m x items resolved :
  map_result (fun x => gid ← name_id m x.1; mret (gid, x.2)) (x :: items)
  = Ok resolved →
  Z.of_nat (length (x :: items)) ≤ 65535 →
  Forall (fun e => 0 ≤ e.1 ≤ 65535 ∧ -32768 ≤ e.2 ≤ 32767) resolved →
  write_kerns m (PySeq (x :: items))
  = mkW (Ok tt)
        (be_octets 2 (Z.of_nat (length (x :: items)))
         ++ (sorted fst resolved ≫= fun e => be_octets 2 e.1 ++ be_octets 2 e.2)).
Proof.
  intros Hres Hlen Hrange. unfold write_kerns.
  cbn [truthy negb drain]. rewrite force_py_map_seq, Hres.
  unfold write_packed at 1, pack_H. rewrite pack_int_ok by lia.
  unfold lift. rewrite !bind_mkW_ok. cbn [res out app].
  rewrite (for_each_ext _
    (fun a => bs ← lift (pack2 pack_H pack_h a.1 a.2); f_write bs))
    by (by intros [??] _).
  rewrite (for_each_emit_all _
    (fun e => be_octets 2 e.1 ++ be_octets 2 e.2)); [done|].
  intros [g v] Hin. rewrite (sorted_perm fst) in Hin.
  rewrite Forall_forall in Hrange. destruct (Hrange _ Hin) as [Hg Hv].
  unfold pack2, pack_H, pack_h. by rewrite !pack_int_ok.
Qed.

(** With every code point on 32 bits and every glyph id and the count
    on 16 bits, the whole map is written, sorted by code point. *)
Lemma unicode_map_written (m : list (Z * Z)) :
  Z.of_nat (length m) ≤ 65535 →
  Forall (fun e => 0 ≤ e.1 ≤ 4294967295 ∧ 0 ≤ e.2 ≤ 65535) m →
  write_clm_unicode_glyph_map m
  = mkW (Ok tt)
        (be_octets 2 (Z.of_nat (length m)) ++ (sorted fst m ≫= encode_entry)).
Proof.
  intros Hlen Hrange. unfold write_clm_unicode_glyph_map.
  unfold write_packed at 1, pack_H. rewrite pack_int_ok by lia.
  unfold lift. rewrite !bind_mkW_ok. cbn [res out app].
  rewrite (for_each_ext _
    (fun a => bs ← lift (pack2 pack_I pack_H a.1 a.2); f_write bs))
    by (by intros [??] _).
  rewrite (for_each_emit_all _ encode_entry); [done|].
  intros [cp g] Hin. rewrite (sorted_perm fst) in Hin.
  rewrite Forall_forall in Hrange. destruct (Hrange _ Hin) as [Hc Hg].
  unfold pack2, pack_I, pack_H. by rewrite !pack_int_ok.
Qed.

(** * Further properties *)

(** ** The path parser *)

(** X1. Every command of a parsed path is an opcode of the parser's
    alphabet followed by exactly as many integers as the opcode takes
    (none for the close command). *)
Theorem parsed_commands_have_their_operands (v : string)
    (p : list (list pyval)) :
  parse_path v = Some (Ok p) → Forall wf_cmd p.
Proof. apply read_cmds_wf. constructor. Qed.

Lemma parsed_commands_have_their_operands_witness :
  parse_path "M 1 2 l-3 4z" = Some (Ok [[Str "M"; Int 1; Int 2];
                                        [Str "l"; Int (-3); Int 4]; [Str "z"]])
  ∧ Forall wf_cmd [[Str "M"; Int 1; Int 2]; [Str "l"; Int (-3); Int 4];
                   [Str "z"]].
Proof.
  split; [vm_compute; reflexivity|].
  apply (parsed_commands_have_their_operands "M 1 2 l-3 4z").
  vm_compute. reflexivity.
Defined.

(** X2. The loops of the parser end on every path description: each
    round of the outer loop moves the index forward, so the parser
    reaches a command list or an exception within [len(v)] rounds. *)
Theorem path_parser_terminates (v : string) :
  ∃ r, parse_path v = Some r
       ∧ ∀ extra, read_cmds (list_ascii_of_string v)
                    (length (list_ascii_of_string v) + extra) 0 [] = Some r.
Proof.
  assert (∀ cs rounds i data r,
    read_cmds cs rounds i data = Some r →
    ∀ extra, read_cmds cs (rounds + extra) i data = Some r) as Hmono.
  { intros cs. induction rounds as [|rounds IH]; intros i data r H extra.
    - simpl in H. destruct extra; simpl; destruct (cs !! i); done.
    - simpl in *. destruct (cs !! i); [|done].
      destruct (path_cmd_arg_cnt _ =? 0); [by apply IH|].
      destruct (read_operands _ _ _ _) as [[cmd i']|]; [by apply IH|done]. }
  destruct (parse_path_total v) as [r Hr]. exists r. split; [done|].
  intros extra. by apply Hmono.
Qed.

Lemma read_cmds_unknown v rounds i data :
  (length v - i ≤ rounds)%nat →
  Forall (fun c => path_cmd_arg_cnt (String c EmptyString) = 0) v →
  read_cmds v rounds i data = Some (Ok data).
Proof.
  intros Hr Hv. revert i data Hr.
  induction rounds as [|rounds IH]; intros i data Hr; simpl.
  - by rewrite lookup_ge_None_2 by lia.
  - destruct (v !! i) as [c|] eqn:Hc; [|done].
    rewrite Forall_lookup in Hv. rewrite (Hv _ _ Hc). simpl.
    apply lookup_lt_Some in Hc. apply IH. lia.
Qed.

(** X3. A path description without any opcode of the parser's alphabet
    (the empty one included) gives the empty command list: every other
    character is skipped, one at a time. *)
Theorem unknown_characters_are_skipped (v : string) :
  Forall (fun c => path_cmd_arg_cnt (String c EmptyString) = 0)
         (list_ascii_of_string v) →
  parse_path v = Some (Ok []) ∧ read_glyph_path (Some v) = Some (Ok []).
Proof.
  intros Hv.
  assert (parse_path v = Some (Ok [])) as H
    by (apply read_cmds_unknown; [lia|done]).
  split; [done|]. unfold read_glyph_path. by rewrite H.
Qed.

Lemma unknown_characters_are_skipped_witness :
  parse_path " ,x;" = Some (Ok [])
  ∧ read_glyph_path (Some " ,x;"%string) = Some (Ok []).
Proof.
  apply (unknown_characters_are_skipped " ,x;").
  repeat constructor.
Defined.

Lemma digits_end_all_valid s j :
  Forall (fun c => is_valid_digit c = true) s →
  digits_end s j = Raise IndexError.
Proof.
  intros H. revert j. induction H as [|c s Hc _ IH]; intros j; simpl; [done|].
  by rewrite Hc.
Qed.

Lemma skip_end_seps seps rest i :
  Forall (fun c => is_valid_digit c = false) seps →
  skip_end (seps ++ rest) i = skip_end rest (i + length seps).
Proof.
  intros H. revert i. induction H as [|c s Hc _ IH]; intros i; simpl.
  - by rewrite Nat.add_0_r.
  - rewrite Hc, IH. f_equal. lia.
Qed.

Lemma read_operands_cut_short v cnt i cmd seps digs :
  drop i v = seps ++ digs →
  Forall (fun c => is_valid_digit c = false) seps →
  Forall (fun c => is_valid_digit c = true) digs →
  read_operands v (S cnt) i cmd = Raise IndexError.
Proof.
  intros Hv Hseps Hdigs. cbn [read_operands]. rewrite Hv.
  rewrite skip_end_seps by done.
  destruct digs as [|d digs]; [done|].
  inversion Hdigs as [|?? Hd Hds]; subst.
  cbn [skip_end]. rewrite Hd. cbn [mbind result_bind]. unfold digits.
  assert (drop (i + length seps) v = d :: digs) as ->.
  { rewrite <- drop_drop, Hv. by rewrite drop_app_length. }
  cbn [digits_end]. rewrite Hd. by rewrite digits_end_all_valid.
Qed.

(** X4. A path description whose first command is cut short (an opcode
    with operands, separators, then digits up to the end of the text)
    makes the parser read past the end of the text: [IndexError]. *)
Theorem number_at_end_of_text_raises (v : string) (c : ascii)
    (seps digs : list ascii) :
  list_ascii_of_string v = c :: seps ++ digs →
  0 < path_cmd_arg_cnt (String c EmptyString) →
  Forall (fun c => is_valid_digit c = false) seps →
  Forall (fun c => is_valid_digit c = true) digs →
  parse_path v = Some (Raise IndexError).
Proof.
  intros Hv Hcnt Hseps Hdigs. unfold parse_path. rewrite Hv.
  cbn [length read_cmds lookup list_lookup].
  destruct (path_cmd_arg_cnt (String c EmptyString) =? 0) eqn:E;
    [apply Z.eqb_eq in E; lia|].
  destruct (Z.to_nat (path_cmd_arg_cnt (String c EmptyString))) as [|n] eqn:En;
    [lia|].
  by rewrite (read_operands_cut_short _ n 1 _ seps digs).
Qed.

Lemma number_at_end_of_text_raises_witness :
  parse_path "M 10" = Some (Raise IndexError).
Proof.
  apply (number_at_end_of_text_raises "M 10" "M" [" "%char] ["1"; "0"]%char);
    [reflexivity|reflexivity|by repeat constructor|by repeat constructor].
Defined.

Lemma decimal_dot acc s : "."%char ∈ s → decimal acc s = None.
Proof.
  revert acc. induction s as [|c s IH]; intros acc Hin.
  - by apply elem_of_nil in Hin.
  - simpl. apply elem_of_cons in Hin as [<-|Hin]; [done|].
    destruct (digit_val c); simpl; [by apply IH|done].
Qed.

(** [int] accepts no decimal point. *)
Lemma py_int_dot tok : "."%char ∈ tok → py_int tok = Raise ValueError.
Proof.
  intros Hin. destruct tok as [|c ds]; [done|]. unfold py_int.
  destruct (Ascii.eqb c "-") eqn:E.
  - apply Ascii.eqb_eq in E. subst c.
    apply elem_of_cons in Hin as [?|Hin]; [done|].
    destruct ds; [by apply elem_of_nil in Hin|].
    by rewrite decimal_dot.
  - by rewrite decimal_dot.
Qed.

Lemma digits_end_run tok sep rest j :
  Forall (fun c => is_valid_digit c = true) tok →
  is_valid_digit sep = false →
  digits_end (tok ++ sep :: rest) j = Ok (j + length tok)%nat.
Proof.
  intros Htok Hsep. revert j.
  induction Htok as [|c s Hc _ IH]; intros j; simpl.
  - rewrite Hsep. f_equal. lia.
  - rewrite Hc, IH. f_equal. lia.
Qed.

Lemma read_operands_dot v cnt i cmd seps tok sep rest :
  drop i v = seps ++ tok ++ sep :: rest →
  Forall (fun c => is_valid_digit c = false) seps →
  Forall (fun c => is_valid_digit c = true) tok →
  "."%char ∈ tok →
  is_valid_digit sep = false →
  read_operands v (S cnt) i cmd = Raise ValueError.
Proof.
  intros Hv Hseps Htok Hdot Hsep. cbn [read_operands]. rewrite Hv.
  rewrite skip_end_seps by done.
  destruct tok as [|d tok]; [by apply elem_of_nil in Hdot|].
  inversion Htok as [|?? Hd Hds]; subst.
  cbn [skip_end app]. rewrite Hd. cbn [mbind result_bind]. unfold digits.
  assert (drop (i + length seps) v = (d :: tok) ++ sep :: rest) as ->.
  { rewrite <- drop_drop, Hv. by rewrite drop_app_length. }
  rewrite digits_end_run by done. cbn [mbind result_bind mret result_ret].
  replace (i + length seps + length (d :: tok) - (i + length seps))%nat
    with (length (d :: tok)) by lia.
  cbn [fst]. rewrite take_app_length. by rewrite py_int_dot.
Qed.

(** X5. The parser takes a dot as part of a number, and [int] then
    rejects the number: a first command whose first operand has a
    decimal point makes [read_glyph_path] raise [ValueError]. *)
Theorem decimal_point_raises_ValueError (v : string) (c sep : ascii)
    (seps tok rest : list ascii) :
  list_ascii_of_string v = c :: seps ++ tok ++ sep :: rest →
  0 < path_cmd_arg_cnt (String c EmptyString) →
  Forall (fun c => is_valid_digit c = false) seps →
  Forall (fun c => is_valid_digit c = true) tok →
  "."%char ∈ tok →
  is_valid_digit sep = false →
  parse_path v = Some (Raise ValueError)
  ∧ read_glyph_path (Some v) = Some (Raise ValueError).
Proof.
  intros Hv Hcnt Hseps Htok Hdot Hsep.
  assert (parse_path v = Some (Raise ValueError)) as H.
  { unfold parse_path. rewrite Hv.
    cbn [length read_cmds lookup list_lookup].
    destruct (path_cmd_arg_cnt (String c EmptyString) =? 0) eqn:E;
      [apply Z.eqb_eq in E; lia|].
    destruct (Z.to_nat (path_cmd_arg_cnt (String c EmptyString)))
      as [|n] eqn:En; [lia|].
    by rewrite (read_operands_dot _ n 1 _ seps tok sep rest). }
  split; [done|]. unfold read_glyph_path. by rewrite H.
Qed.

Lemma decimal_point_raises_ValueError_witness :
  parse_path "M 10.5 20 Z" = Some (Raise ValueError)
  ∧ read_glyph_path (Some "M 10.5 20 Z"%string) = Some (Raise ValueError).
Proof.
  apply (decimal_point_raises_ValueError "M 10.5 20 Z" "M" " " [" "%char]
           ["1"; "0"; "."; "5"]%char [ "2"; "0"; " "; "Z"]%char);
    [reflexivity|reflexivity|by repeat constructor|by repeat constructor
    | |reflexivity].
  do 2 right. left.
Defined.

Lemma map_result_length {A B} (f : A → result B) xs ys :
  map_result f xs = Ok ys → length ys = length xs.
Proof.
  revert ys. induction xs as [|x xs IH]; intros ys; simpl.
  - by intros [= <-].
  - destruct (f x) as [y|]; simpl; [|done].
    destruct (map_result f xs) as [ys'|]; simpl; [|done].
    intros [= <-]. simpl. f_equal. by apply IH.
Qed.

(** X6. [read_glyph_path] fails only where the parser fails: an
    exception of the parser is the outcome, and after a successful
    parse the mirror step never raises and returns as many commands, each
    with its opcode's operand count. *)
Theorem read_glyph_path_fails_only_in_parser (v : string) :
  match parse_path v with
  | Some (Raise e) => read_glyph_path (Some v) = Some (Raise e)
  | Some (Ok p) =>
    ∃ p', read_glyph_path (Some v) = Some (Ok p')
          ∧ length p' = length p ∧ Forall wf_cmd p'
  | None => False
  end.
Proof.
  destruct (parse_path_total v) as [r Hr]. rewrite Hr.
  unfold read_glyph_path. rewrite Hr. destruct r as [p|e]; [|done].
  apply parse_path_wf, mirror_wf in Hr as (p' & H1 & H2 & _).
  exists p'. simpl. rewrite H1. split; [done|]. split; [|done].
  by apply map_result_length in H1.
Qed.

(** ** Unicode map and kerning *)

Lemma encode_entries_length (l : list (Z * Z)) :
  length (l ≫= encode_entry) = (6 * length l)%nat.
Proof.
  induction l as [|e l IH]; [done|].
  rewrite bind_cons, length_app. unfold encode_entry at 1.
  rewrite length_app, !be_octets_length, IH. cbn [length]. lia.
Qed.

(** A stable sort keeps the order of the items with the same key. *)
Lemma sorted_stable {A} (key : A → Z) k (l : list A) :
  List.filter (fun e => key e =? k) (sorted key l)
  = List.filter (fun e => key e =? k) l.
Proof.
  assert (∀ x s, List.filter (fun e => key e =? k) (insert_by key x s)
               = List.filter (fun e => key e =? k) (x :: s)) as Hins.
  { intros x. induction s as [|y s IHs]; [done|]. cbn [insert_by].
    destruct (key x <=? key y) eqn:E; [done|]. apply Z.leb_gt in E.
    cbn [List.filter] in *. rewrite IHs.
    destruct (key x =? k) eqn:Ex, (key y =? k) eqn:Ey; try done.
    apply Z.eqb_eq in Ex, Ey. lia. }
  induction l as [|x l IH]; [done|].
  unfold sorted in *. cbn [foldr]. rewrite Hins. cbn [List.filter].
  by rewrite IH.
Qed.

(** X7. With at most 65535 entries, code points on 32 bits and glyph
    ids on 16 bits, [write_clm_unicode_glyph_map] succeeds and writes
    the count on two octets and then every entry on six, in the order
    of a stable sort by code point: entries with the same code point
    keep their order. *)
Theorem unicode_map_written_in_full (m : list (Z * Z)) :
  Z.of_nat (length m) ≤ 65535 →
  Forall (fun e => 0 ≤ e.1 ≤ 4294967295 ∧ 0 ≤ e.2 ≤ 65535) m →
  write_clm_unicode_glyph_map m
  = mkW (Ok tt)
        (be_octets 2 (Z.of_nat (length m)) ++ (sorted fst m ≫= encode_entry))
  ∧ length (out (write_clm_unicode_glyph_map m)) = (2 + 6 * length m)%nat
  ∧ ∀ cp, List.filter (fun e => e.1 =? cp) (sorted fst m)
          = List.filter (fun e => e.1 =? cp) m.
Proof.
  intros Hlen Hrange. rewrite unicode_map_written by done.
  split; [done|]. split; [|intros cp; apply sorted_stable].
  cbn [out]. by rewrite length_app, be_octets_length, encode_entries_length,
    sorted_length.
Qed.

Lemma unicode_map_written_in_full_witness :
  write_clm_unicode_glyph_map [(66, 2); (65, 1); (65, 3)]
  = mkW (Ok tt) (be_octets 2 3
                 ++ (sorted fst [(66, 2); (65, 1); (65, 3)] ≫= encode_entry)).
Proof.
  apply (unicode_map_written_in_full [(66, 2); (65, 1); (65, 3)]).
  - simpl. lia.
  - repeat constructor; simpl; lia.
Defined.

(** X8. A map of more than 65535 entries does not fit the count field:
    [struct.pack] raises and nothing of the map is written. *)
Theorem unicode_map_too_long (m : list (Z * Z)) :
  65535 < Z.of_nat (length m) →
  write_clm_unicode_glyph_map m = mkW (Raise StructError) [].
Proof.
  intros Hlen. unfold write_clm_unicode_glyph_map, write_packed, pack_H,
    pack_int.
  replace (Z.of_nat (length m) <=? 65535) with false
    by (symmetry; apply Z.leb_gt; lia).
  by rewrite andb_false_r.
Qed.

Lemma unicode_map_too_long_witness :
  write_clm_unicode_glyph_map (replicate (Z.to_nat 65536) (0, 0))
  = mkW (Raise StructError) [].
Proof.
  apply unicode_map_too_long. rewrite length_replicate. lia.
Defined.

(** X9. Given a list of pairs whose names are all known, with ids and
    values in range, [write_kerns] writes the count and the pairs as
    (id on 16 bits, value on 16 bits), in ascending order of id. *)
Theorem write_kerns_writes_sorted_list (m : gmap string Z)
    (x : string * Z) (items : list (string * Z)) (resolved : list (Z * Z)) :
  map_result (fun x => gid ← name_id m x.1; mret (gid, x.2)) (x :: items)
  = Ok resolved →
  Z.of_nat (length (x :: items)) ≤ 65535 →
  Forall (fun e => 0 ≤ e.1 ≤ 65535 ∧ -32768 ≤ e.2 ≤ 32767) resolved →
  write_kerns m (PySeq (x :: items))
  = mkW (Ok tt)
        (be_octets 2 (Z.of_nat (length (x :: items)))
         ++ (sorted fst resolved ≫= fun e => be_octets 2 e.1 ++ be_octets 2 e.2))
  ∧ StronglySorted (fun a b => a.1 ≤ b.1) (sorted fst resolved)
  ∧ sorted fst resolved ≡ₚ resolved.
Proof.
  intros H1 H2 H3. split; [by apply write_kerns_of_list|].
  split; [apply sorted_sorted|apply sorted_perm].
Qed.

Lemma write_kerns_writes_sorted_list_witness :
  write_kerns example_ids (PySeq [("B", -50); ("A", 7)]%string)
  = mkW (Ok tt) [0; 2; 0; 1; 0; 7; 0; 2; 255; 206].
Proof.
  apply (write_kerns_writes_sorted_list example_ids ("B", -50)%string
           [("A", 7)]%string [(2, -50); (1, 7)]).
  - vm_compute. reflexivity.
  - simpl. lia.
  - repeat constructor; simpl; lia.
Defined.

Lemma map_result_missing m (items : list (string * Z)) :
  Exists (fun x => m !! x.1 = None) items →
  map_result (fun x => gid ← name_id m x.1; mret (gid, x.2)) items
  = Raise KeyError.
Proof.
  induction items as [|x items IH]; intros H; [by inversion H|].
  cbn [map_result].
  destruct (name_id m x.1) as [gid|e] eqn:E.
  - cbn [mbind result_bind mret result_ret].
    inversion H as [?? Hx|?? Hx]; subst.
    + unfold name_id in E. by rewrite Hx in E.
    + by rewrite IH.
  - unfold name_id in E. destruct (m !! x.1); by inversion E.
Qed.

(** X10. Given a list of pairs one of which names a glyph that is not
    in the map, [write_kerns] raises [KeyError] when it resolves the
    names, after the count has been written: the count stays in the
    output and no pair follows. *)
Theorem write_kerns_unknown_glyph (m : gmap string Z)
    (x : string * Z) (items : list (string * Z)) :
  Z.of_nat (length (x :: items)) ≤ 65535 →
  Exists (fun x => m !! x.1 = None) (x :: items) →
  write_kerns m (PySeq (x :: items))
  = mkW (Raise KeyError) (be_octets 2 (Z.of_nat (length (x :: items)))).
Proof.
  intros Hlen Hmiss. unfold write_kerns.
  cbn [truthy negb drain]. rewrite force_py_map_seq, map_result_missing by done.
  unfold write_packed at 1, pack_H. rewrite pack_int_ok by lia.
  unfold lift, f_write. rewrite bind_mkW_raise, !bind_mkW_ok. cbn [res out app].
  rewrite bind_mkW_ok. cbn [res out]. by rewrite app_nil_r.
Qed.

Lemma write_kerns_unknown_glyph_witness :
  write_kerns example_ids (PySeq [("A", 7); ("Q", 1)]%string)
  = mkW (Raise KeyError) [0; 2].
Proof.
  apply (write_kerns_unknown_glyph example_ids ("A", 7)%string
           [("Q", 1)]%string).
  - simpl. lia.
  - right. left. reflexivity.
Defined.

(** X11. The loop over the values of a kerning class table, run on a
    matrix of [rows] by [cols] values that fit 16 bits, writes two
    octets for each cell outside row 0 and column 0, row by row, and
    nothing for the cells of row 0 and of column 0:
    [(rows - 1) * (cols - 1)] cells in all. *)
Theorem value_loop_skips_row_0_and_column_0 (rows cols : nat)
    (value : list Z) :
  (1 ≤ rows)%nat → (1 ≤ cols)%nat →
  length value = (rows * cols)%nat →
  Forall (fun v => -32768 ≤ v ≤ 32767) value →
  write_value_matrix (Z.of_nat cols) value
  = mkW (Ok tt) (inner_cells rows cols value ≫= be_octets 2)
  ∧ length (inner_cells rows cols value) = ((rows - 1) * (cols - 1))%nat.
Proof. apply value_matrix_written. Qed.

Lemma value_loop_skips_row_0_and_column_0_witness :
  write_value_matrix (Z.of_nat 3) [1; 2; 3; 4; 5; 6]
  = mkW (Ok tt) (inner_cells 2 3 [1; 2; 3; 4; 5; 6] ≫= be_octets 2)
  ∧ length (inner_cells 2 3 [1; 2; 3; 4; 5; 6]) = ((2 - 1) * (3 - 1))%nat.
Proof.
  apply (value_loop_skips_row_0_and_column_0 2 3 [1; 2; 3; 4; 5; 6]).
  - lia.
  - lia.
  - reflexivity.
  - repeat constructor; lia.
Defined.


(** ** The loop over the glyphs of the font *)

Lemma read_round_inv b1 b2 s g s' :
  read_round b1 b2 s g = Ok s' →
  rs_unicode_glyph_map s'
  = rs_unicode_glyph_map s
    ++ (if unicode g =? -1 then [] else [(unicode g, originalgid g)])
  ∧ rs_glyph_name_id_map s'
    = <[glyphname g := originalgid g]> (rs_glyph_name_id_map s)
  ∧ (∃ info, rs_glyphs s' = rs_glyphs s ++ [info]
       ∧ glyph_name info = glyphname g
       ∧ metrics info = read_metrics g
       ∧ kerning info
         = (read_kern (getPosSub_pair g) (rs_kern_subtable_names s)).1)
  ∧ rs_ligas s'
    = rs_ligas s
      ++ (drain (read_ligatures g (rs_liga_subtable_names s)).1).1
  ∧ rs_kern_subtable_names s' = (drain (rs_kern_subtable_names s)).2
  ∧ rs_liga_subtable_names s' = (drain (rs_liga_subtable_names s)).2.
Proof.
  unfold read_round, read_glyph, read_kern, read_ligatures, fmap_list.
  destruct (drain (rs_kern_subtable_names s)) as [knames kafter] eqn:Ek.
  destruct (drain (rs_liga_subtable_names s)) as [lnames lafter] eqn:El.
  destruct (if b1 then _ else _) as [m scripts'].
  destruct (if b2 then _ else _) as [path|e]; [|done].
  cbn [mbind result_bind mret result_ret]. intros [= <-]. cbn.
  split; [by destruct (unicode g =? -1); rewrite ?app_nil_r|].
  split; [done|]. split; [|done].
  eexists. split; [done|]. done.
Qed.

Lemma drain_twice {A} (it : iterable A) :
  (drain (drain it).2).2 = (drain it).2.
Proof. by destruct it. Qed.

(** The loop from any state: what it appends, and the subtable names it
    leaves. *)
Lemma read_loop_inv b1 b2 gs s s' :
  for_fold (read_round b1 b2) gs s = Ok s' →
  rs_unicode_glyph_map s'
  = rs_unicode_glyph_map s
    ++ ((fun g => (unicode g, originalgid g))
        <$> List.filter (fun g => negb (unicode g =? -1)) gs)
  ∧ rs_glyph_name_id_map s'
    = foldl (fun m g => <[glyphname g := originalgid g]> m)
            (rs_glyph_name_id_map s) gs
  ∧ glyph_name <$> rs_glyphs s'
    = (glyph_name <$> rs_glyphs s) ++ (glyphname <$> gs)
  ∧ metrics <$> rs_glyphs s'
    = (metrics <$> rs_glyphs s) ++ (read_metrics <$> gs).
Proof.
  revert s. induction gs as [|g gs IH]; intros s.
  - intros [= <-]. by rewrite !app_nil_r.
  - cbn [for_fold]. destruct (read_round b1 b2 s g) as [s1|] eqn:E; [|done].
    cbn [mbind result_bind]. intros H.
    apply IH in H as (H1 & H2 & H3 & H4).
    apply read_round_inv in E
      as (E1 & E2 & (info & E3 & E3n & E3m & _) & _).
    rewrite H1, H2, H3, H4, E1, E2, E3. cbn [List.filter foldl].
    rewrite !fmap_app, !fmap_cons, E3n, E3m, <- !app_assoc.
    split; [by destruct (unicode g =? -1)|]. done.
Qed.

(** Once the subtable names are used up, no glyph gets a kerning pair
    or a ligature. *)
Lemma read_loop_exhausted b1 b2 gs s s' :
  rs_kern_subtable_names s = PyIter [] →
  rs_liga_subtable_names s = PyIter [] →
  for_fold (read_round b1 b2) gs s = Ok s' →
  (∃ infos, rs_glyphs s' = rs_glyphs s ++ infos
            ∧ Forall (fun info => kerning info = PyIter []) infos)
  ∧ rs_ligas s' = rs_ligas s.
Proof.
  revert s. induction gs as [|g gs IH]; intros s Hk Hl.
  - intros [= <-]. split; [|done]. exists []. by rewrite app_nil_r.
  - cbn [for_fold]. destruct (read_round b1 b2 s g) as [s1|] eqn:E; [|done].
    cbn [mbind result_bind]. intros H.
    apply read_round_inv in E
      as (_ & _ & (info & E3 & _ & _ & E3k) & E4 & E5 & E6).
    rewrite Hk in E3k, E5. rewrite Hl in E4, E6. cbn in E3k, E4, E5, E6.
    apply IH in H as ((infos & H1 & H2) & H3); [|done|done].
    split.
    + exists (info :: infos). rewrite H1, E3, <- app_assoc.
      split; [done|]. by constructor.
    + by rewrite H3, E4, app_nil_r.
Qed.

Lemma parse_otf_read_inv font b1 b2 data :
  parse_otf_read font b1 b2 = Ok data →
  ∃ s, for_fold (read_round b1 b2) (font_glyphs font)
         {| rs_unicode_glyph_map := []; rs_glyph_name_id_map := ∅;
            rs_glyphs := []; rs_ligas := [];
            rs_kern_subtable_names := read_kern_subtables (lookups font);
            rs_liga_subtable_names := read_ligature_subtables font;
            rs_scripts_subtable_names := read_scripts_subtables font |} = Ok s
       ∧ unicode_glyph_map data = rs_unicode_glyph_map s
       ∧ glyph_name_id_map data = rs_glyph_name_id_map s
       ∧ glyphs data = rs_glyphs s
       ∧ ligas data = rs_ligas s.
Proof.
  unfold parse_otf_read.
  destruct (for_fold _ _ _) as [s|] eqn:E; [|done].
  cbn [mbind result_bind mret result_ret]. intros [= <-]. by exists s.
Qed.

(** X12. The subtable names of the kerning and ligature lookups are
    [filter] objects that the same loop reads for every glyph: the
    first glyph uses them up. In what [parse_otf] has read, the first
    glyph has the kerning pairs and the ligature rules of its
    subtables, every later glyph has an empty kerning list, and the
    rules of the later glyphs are missing. *)
Theorem only_first_glyph_is_read_in_full (font : ff_font)
    (is_math_font have_glyph_path : bool) (data : font_data) :
  parse_otf_read font is_math_font have_glyph_path = Ok data →
  match font_glyphs font with
  | [] => glyphs data = [] ∧ ligas data = []
  | g1 :: _ =>
    ∃ info infos,
      glyphs data = info :: infos
      ∧ kerning info
        = (read_kern (getPosSub_pair g1) (read_kern_subtables (lookups font))).1
      ∧ Forall (fun info => kerning info = PyIter []) infos
      ∧ ligas data
        = (drain (read_ligatures g1 (read_ligature_subtables font)).1).1
  end.
Proof.
  intros (s & Hs & _ & _ & -> & ->)%parse_otf_read_inv.
  destruct (font_glyphs font) as [|g1 gs].
  - by injection Hs as <-.
  - cbn [for_fold] in Hs.
    destruct (read_round _ _ _ g1) as [s1|] eqn:E; [|done].
    cbn [mbind result_bind] in Hs.
    apply read_round_inv in E
      as (_ & _ & (info & E3 & _ & _ & E3k) & E4 & E5 & E6).
    cbn in E3, E3k, E4, E5, E6.
    apply read_loop_exhausted in Hs as ((infos & H1 & H2) & H3);
      [|done|done].
    exists info, infos. rewrite H1, H3, E3, E4. done.
Qed.

Lemma only_first_glyph_is_read_in_full_witness :
  ∃ info infos data,
    parse_otf_read (example_ff_font None) false false = Ok data
    ∧ glyphs data = info :: infos
    ∧ kerning info = PyIter [("f"%string, -20)]
    ∧ Forall (fun info => kerning info = PyIter []) infos
    ∧ ligas data = [(["f"; "i"]%string, 1)].
Proof.
  destruct (parse_otf_read (example_ff_font None) false false)
    as [data|] eqn:E; [|by vm_compute in E].
  destruct (only_first_glyph_is_read_in_full _ _ _ _ E)
    as (info & infos & H1 & H2 & H3 & H4).
  exists info, infos, data. done.
Defined.

(** X13. What the loop has read keeps the order of the font: the
    unicode map holds the pair (code point, glyph id) of every glyph
    whose code point is not -1, and the glyph list the name and the
    metrics of every glyph, one entry for each glyph of the font. *)
Theorem glyphs_are_read_in_font_order (font : ff_font)
    (is_math_font have_glyph_path : bool) (data : font_data) :
  parse_otf_read font is_math_font have_glyph_path = Ok data →
  unicode_glyph_map data
  = (fun g => (unicode g, originalgid g))
    <$> List.filter (fun g => negb (unicode g =? -1)) (font_glyphs font)
  ∧ glyph_name <$> glyphs data = glyphname <$> font_glyphs font
  ∧ metrics <$> glyphs data = read_metrics <$> font_glyphs font
  ∧ length (glyphs data) = length (font_glyphs font).
Proof.
  intros (s & Hs & -> & _ & -> & _)%parse_otf_read_inv.
  apply read_loop_inv in Hs as (H1 & _ & H3 & H4). cbn in H1, H3, H4.
  repeat split; try done.
  by rewrite <- (length_fmap glyph_name), H3, length_fmap.
Qed.

Lemma glyphs_are_read_in_font_order_witness :
  ∃ data,
    parse_otf_read (example_ff_font None) false false = Ok data
    ∧ unicode_glyph_map data = [(102, 1)]
    ∧ glyph_name <$> glyphs data = ["f"; "i"]%string.
Proof.
  destruct (parse_otf_read (example_ff_font None) false false)
    as [data|] eqn:E; [|by vm_compute in E].
  destruct (glyphs_are_read_in_font_order _ _ _ _ E) as (H1 & H2 & _).
  exists data. done.
Defined.

Lemma foldl_insert_lookup_other (gs : list ff_glyph) (m : gmap string Z) n :
  n ∉ glyphname <$> gs →
  foldl (fun m g => <[glyphname g := originalgid g]> m) m gs !! n = m !! n.
Proof.
  revert m. induction gs as [|g gs IH]; intros m Hn; [done|].
  rewrite fmap_cons, not_elem_of_cons in Hn. destruct Hn as [Hne Hn].
  cbn [foldl]. rewrite IH by done. by rewrite lookup_insert_ne.
Qed.

(** X14. With glyph names that are all different, the name to id map
    built by the loop gives every glyph of the font its own glyph id,
    and knows no other name. *)
Theorem name_id_map_of_font (font : ff_font)
    (is_math_font have_glyph_path : bool) (data : font_data) :
  parse_otf_read font is_math_font have_glyph_path = Ok data →
  NoDup (glyphname <$> font_glyphs font) →
  (∀ g, g ∈ font_glyphs font →
        glyph_name_id_map data !! glyphname g = Some (originalgid g))
  ∧ (∀ n, n ∉ glyphname <$> font_glyphs font →
          glyph_name_id_map data !! n = None).
Proof.
  intros (s & Hs & _ & -> & _)%parse_otf_read_inv Hnd.
  apply read_loop_inv in Hs as (_ & -> & _). cbn.
  split.
  - generalize (∅ : gmap string Z).
    induction (font_glyphs font) as [|g0 gs IH]; intros m g Hg.
    + by apply elem_of_nil in Hg.
    + rewrite fmap_cons, NoDup_cons in Hnd. destruct Hnd as [Hn0 Hnd].
      cbn [foldl]. apply elem_of_cons in Hg as [->|Hg].
      * rewrite foldl_insert_lookup_other by done.
        by rewrite lookup_insert_eq.
      * by apply IH.
  - intros n Hn. by rewrite foldl_insert_lookup_other.
Qed.

Lemma name_id_map_of_font_witness :
  ∃ data,
    parse_otf_read (example_ff_font None) false false = Ok data
    ∧ glyph_name_id_map data !! "i"%string = Some 2
    ∧ glyph_name_id_map data !! "j"%string = None.
Proof.
  destruct (parse_otf_read (example_ff_font None) false false)
    as [data|] eqn:E; [|by vm_compute in E].
  assert (NoDup (glyphname <$> font_glyphs (example_ff_font None))) as Hnd.
  { cbn. apply NoDup_cons. split; [|apply NoDup_singleton].
    intros ?%list_elem_of_singleton. done. }
  destruct (name_id_map_of_font _ _ _ _ E Hnd) as [H1 H2].
  exists data. split; [done|]. split.
  - apply (H1 (example_glyph "i" (-1) 2 None)). right. left.
  - apply H2. cbn. intros [?|?%list_elem_of_singleton]%elem_of_cons; done.
Defined.

Lemma read_round_without_paths b1 s g :
  ∃ s', read_round b1 false s g = Ok s'.
Proof.
  unfold read_round, read_glyph.
  destruct (read_kern _ _) as [kerns knames].
  destruct (if b1 then _ else _) as [m scripts'].
  cbn [mbind result_bind mret result_ret].
  destruct (read_ligatures _ _) as [liga_info lnames]. eauto.
Qed.

(** X15. Without glyph paths, reading the font raises nothing: the
    loop over the glyphs completes for every font. *)
Theorem reading_without_paths_never_fails (font : ff_font)
    (is_math_font : bool) :
  ∃ data, parse_otf_read font is_math_font false = Ok data.
Proof.
  unfold parse_otf_read.
  assert (∀ gs s, ∃ s', for_fold (read_round is_math_font false) gs s = Ok s')
    as Hloop.
  { induction gs as [|g gs IH]; intros s; [by exists s|].
    cbn [for_fold].
    destruct (read_round_without_paths is_math_font s g) as [s1 ->].
    cbn [mbind result_bind]. apply IH. }
  destruct (Hloop (font_glyphs font)
    {| rs_unicode_glyph_map := []; rs_glyph_name_id_map := ∅;
       rs_glyphs := []; rs_ligas := [];
       rs_kern_subtable_names := read_kern_subtables (lookups font);
       rs_liga_subtable_names := read_ligature_subtables font;
       rs_scripts_subtable_names := read_scripts_subtables font |})
    as [s ->].
  cbn [mbind result_bind mret result_ret]. eauto.
Qed.

Lemma read_round_bad_path b1 s g :
  is_ok (path_of (path_d g)) = false → is_ok (read_round b1 true s g) = false.
Proof.
  intros H. unfold read_round, read_glyph.
  destruct (read_kern _ _) as [kerns knames].
  destruct (if b1 then _ else _) as [m scripts'].
  by destruct (path_of (path_d g)).
Qed.

(** X16. With glyph paths, a single glyph whose path description the
    parser rejects makes the whole conversion fail while the font is
    read, before the output file is opened: nothing is written. *)
Theorem bad_path_stops_the_conversion (font : ff_font) (is_math_font : bool) :
  Exists (fun g => is_ok (path_of (path_d g)) = false) (font_glyphs font) →
  ∃ e, parse_otf_run font is_math_font true = mkW (Raise e) [].
Proof.
  intros Hbad. unfold parse_otf_run, parse_otf_read.
  assert (∀ gs s,
    Exists (fun g => is_ok (path_of (path_d g)) = false) gs →
    is_ok (for_fold (read_round is_math_font true) gs s) = false) as Hloop.
  { induction gs as [|g gs IH]; intros s H; [by inversion H|].
    cbn [for_fold].
    destruct (read_round is_math_font true s g) as [s1|] eqn:E; [|done].
    cbn [mbind result_bind].
    inversion H as [?? Hg|?? Hg]; subst; [|by apply IH].
    apply (read_round_bad_path is_math_font s) in Hg. by rewrite E in Hg. }
  specialize (Hloop (font_glyphs font)
    {| rs_unicode_glyph_map := []; rs_glyph_name_id_map := ∅;
       rs_glyphs := []; rs_ligas := [];
       rs_kern_subtable_names := read_kern_subtables (lookups font);
       rs_liga_subtable_names := read_ligature_subtables font;
       rs_scripts_subtable_names := read_scripts_subtables font |} Hbad).
  destruct (for_fold _ _ _) as [s|e]; [done|].
  exists e. reflexivity.
Qed.

Lemma bad_path_stops_the_conversion_witness :
  ∃ e, parse_otf_run (example_ff_font (Some "M 1.5 2 Z"%string)) false true
       = mkW (Raise e) [].
Proof.
  apply (bad_path_stops_the_conversion
           (example_ff_font (Some "M 1.5 2 Z"%string)) false).
  right. left. vm_compute. reflexivity.
Defined.

Lemma int_of_nonneg (q : Q) : 0 ≤ Qnum q → 0 ≤ int_of q.
Proof.
  intros H. unfold int_of. apply Z.quot_pos; [done|]. lia.
Qed.

(** X17. The height and the depth of [read_metrics] are never
    negative, whatever the bounding box: the height is [ymax] when it
    is above the baseline and 0 otherwise, the depth is [-ymin] when
    [ymin] is below the baseline and 0 otherwise; both are written as
    non-negative integers. *)
Theorem read_metrics_never_negative (g : ff_glyph) :
  let '(xmin, ymin, xmax, ymax) := boundingBox g in
  let '(w, height, depth) := read_metrics g in
  w = width g
  ∧ (0 <= height)%Q ∧ (0 <= depth)%Q
  ∧ (ymax <= height)%Q ∧ (- ymin <= depth)%Q
  ∧ 0 ≤ int_of height ∧ 0 ≤ int_of depth.
Proof.
  unfold read_metrics. destruct (boundingBox g) as [[[xmin ymin] xmax] ymax].
  unfold max_0, min_0.
  destruct (Qle_bool ymax 0) eqn:E1; destruct (Qle_bool 0 ymin) eqn:E2;
    rewrite ?Qle_bool_iff in *;
    try (assert (¬ (ymax <= 0)%Q) as N1
           by (rewrite <- Qle_bool_iff; congruence));
    try (assert (¬ (0 <= ymin)%Q) as N2
           by (rewrite <- Qle_bool_iff; congruence));
    try apply Qnot_le_lt in N1; try apply Qnot_le_lt in N2;
    repeat split; try done;
    try (apply int_of_nonneg);
    unfold Qle, Qlt in *; simpl in *; lia.
Qed.

Lemma split_space_cons s : ∃ w ws, split_space s = w :: ws.
Proof.
  induction s as [|c s (w & ws & IH)]; [by eexists _, _|].
  simpl. destruct (Ascii.eqb c " "); [by eexists _, _|].
  rewrite IH. by eexists _, _.
Qed.

Lemma join_space_cons w w' ws :
  join_space (w :: w' :: ws)
  = String.append w (String " " (join_space (w' :: ws))).
Proof. reflexivity. Qed.

Lemma join_split_space s : join_space (split_space s) = s.
Proof.
  induction s as [|c s IH]; [done|]. cbn [split_space].
  destruct (split_space_cons s) as (w & ws & Hs). rewrite Hs in *.
  destruct (Ascii.eqb c " ") eqn:E.
  - apply Ascii.eqb_eq in E. subst c.
    rewrite join_space_cons, IH. reflexivity.
  - destruct ws as [|w' ws].
    + cbn [join_space] in *. by rewrite IH.
    + rewrite join_space_cons in *. rewrite <- IH. reflexivity.
Qed.

Lemma split_space_no_space s :
  Forall (fun w => " "%char ∉ list_ascii_of_string w) (split_space s).
Proof.
  induction s as [|c s IH]; simpl.
  - repeat constructor. apply not_elem_of_nil.
  - destruct (Ascii.eqb c " ") eqn:E.
    + constructor; [apply not_elem_of_nil|done].
    + destruct (split_space_cons s) as (w & ws & Hs). rewrite Hs in *.
      inversion IH as [|?? Hw Hws]; subst. constructor; [|done].
      cbn [list_ascii_of_string]. apply not_elem_of_cons. split; [|done].
      intros <-. by rewrite Ascii.eqb_refl in E.
Qed.

(** X18. [read_variants] gives no variant for a missing or empty
    string, and otherwise the names between the spaces of the string:
    none of them holds a space, there is at least one, and joined with
    spaces they give the string back. *)
Theorem read_variants_splits_at_spaces (s : string) :
  read_variants None = []
  ∧ join_space (read_variants (Some s)) = s
  ∧ Forall (fun w => " "%char ∉ list_ascii_of_string w) (read_variants (Some s))
  ∧ (read_variants (Some s) = [] ↔ s = EmptyString).
Proof.
  split; [done|]. destruct s as [|c s]; [repeat split; done|].
  cbn [read_variants]. split; [apply join_split_space|].
  split; [apply split_space_no_space|].
  destruct (split_space_cons (String c s)) as (w & ws & ->). done.
Qed.

Lemma for_each_write_packed pack (enc : Z → list Z) xs :
  (∀ a, a ∈ xs → pack a = Ok (enc a)) →
  for_each (write_packed pack) xs = mkW (Ok tt) (xs ≫= enc).
Proof. apply for_each_emit_all. Qed.

Lemma be_octets_2_length (l : list Z) :
  length (l ≫= be_octets 2) = (2 * length l)%nat.
Proof.
  induction l as [|e l IH]; [done|].
  rewrite bind_cons, length_app, be_octets_length, IH. cbn [length]. lia.
Qed.

Lemma bind_fmap_octets {A} (f : A → Z) (l : list A) :
  (f <$> l) ≫= be_octets 2 = l ≫= fun a => be_octets 2 (f a).
Proof.
  induction l as [|a l IH]; [done|]. by rewrite fmap_cons, !bind_cons, IH.
Qed.

(** X19. For a math font whose constants all fit 16 bits, the block of
    math constants is the 57 constants of [read_math_consts], two
    octets each, 114 octets in all, in the order of the script. *)
Theorem math_constants_block (m : string → Z) :
  Forall (fun name => -32768 ≤ m name ≤ 32767) math_const_names →
  write_math_consts (read_math_consts m)
  = mkW (Ok tt) (math_const_names ≫= fun name => be_octets 2 (m name))
  ∧ length (out (write_math_consts (read_math_consts m))) = 114%nat.
Proof.
  intros Hrange.
  assert (write_math_consts (read_math_consts m)
          = mkW (Ok tt) (read_math_consts m ≫= be_octets 2)) as ->.
  { apply for_each_write_packed. intros a Ha.
    apply list_elem_of_fmap in Ha as (name & -> & Hname).
    rewrite Forall_forall in Hrange. by apply pack_int_ok, Hrange. }
  split.
  - f_equal; apply bind_fmap_octets.
  - cbn [out]. rewrite be_octets_2_length. unfold read_math_consts.
    by rewrite length_fmap.
Qed.

Lemma math_constants_block_witness :
  length (out (write_math_consts (read_math_consts (fun _ => -1)))) = 114%nat.
Proof.
  apply (math_constants_block (fun _ => -1)).
  apply Forall_forall. intros name _. lia.
Defined.

(** X20. A math constant that does not fit 16 bits stops the block at
    that constant: the constants before it are written, [struct.pack]
    raises, and nothing of the block follows. *)
Theorem math_constant_out_of_range (consts1 consts2 : list Z) (c : Z) :
  Forall (fun v => -32768 ≤ v ≤ 32767) consts1 →
  ¬ (-32768 ≤ c ≤ 32767) →
  write_math_consts (consts1 ++ c :: consts2)
  = mkW (Raise StructError) (consts1 ≫= be_octets 2).
Proof.
  intros H1 Hc. unfold write_math_consts.
  assert (write_packed pack_h c = mkW (Raise StructError) []) as Hw.
  { unfold write_packed, pack_h, pack_int.
    replace ((-32768 <=? c) && (c <=? 32767)) with false; [done|].
    symmetry. apply andb_false_iff.
    destruct (Z.leb_spec (-32768) c), (Z.leb_spec c 32767); auto; lia. }
  rewrite for_each_app.
  rewrite (for_each_write_packed pack_h (be_octets 2) consts1).
  - cbn [for_each]. rewrite Hw, bind_mkW_raise, bind_mkW_ok. cbn [res out].
    by rewrite app_nil_r.
  - intros a Ha. rewrite Forall_forall in H1. by apply pack_int_ok, H1.
Qed.

Lemma math_constant_out_of_range_witness :
  write_math_consts ([1; 2] ++ 40000 :: [3])
  = mkW (Raise StructError) ([1; 2] ≫= be_octets 2).
Proof.
  apply (math_constant_out_of_range [1; 2] [3] 40000).
  - repeat constructor; lia.
  - lia.
Defined.

(** ** The ligature forest *)

(** X21. After [add_node] for a sequence of glyph ids and a ligature,
    the forest has that ligature at the end of the sequence; every
    node on the way exists, with the ligature it had before or -1 if it
    is new; and no other sequence has changed. *)
Theorem add_node_then_lookup (glyphs : list (Z * pyval)) (l : Z)
    (forest forest' : list node) :
  add_node glyphs l forest = Ok forest' →
  liga_at (glyphs.*1) forest' = Some l
  ∧ (∀ q, q ≠ [] → q `prefix_of` glyphs.*1 → q ≠ glyphs.*1 →
          liga_at q forest' = Some (default (-1) (liga_at q forest)))
  ∧ (∀ q, ¬ q `prefix_of` glyphs.*1 → liga_at q forest' = liga_at q forest).
Proof.
  destruct glyphs as [|[g c] rest]; [done|].
  intros [= <-]. rewrite fmap_cons. cbn [fst].
  split; [|split].
  - rewrite liga_at_add_path. unfold liga_after. by rewrite decide_True.
  - intros q Hne Hpre Hq. rewrite liga_at_add_path. unfold liga_after.
    rewrite decide_False by done. by rewrite decide_True.
  - intros q Hpre. rewrite liga_at_add_path. unfold liga_after.
    rewrite decide_False; [|by intros ->].
    rewrite decide_False; [done|]. by intros [_ ?].
Qed.

Lemma add_node_then_lookup_witness :
  ∃ forest',
    add_node [(1, Str "f"); (1, Str "f"); (2, Str "i")] 10 [] = Ok forest'
    ∧ liga_at [1; 1; 2] forest' = Some 10
    ∧ liga_at [1; 1] forest' = Some (-1).
Proof.
  eexists. split; [reflexivity|].
  destruct (add_node_then_lookup [(1, Str "f"); (1, Str "f"); (2, Str "i")]
              10 [] _ eq_refl) as (H1 & H2 & _).
  split; [exact H1|].
  apply (H2 [1; 1]); [done|by exists [2]|done].
Defined.

Lemma rule_glyphs_missing m chars :
  Exists (fun char => m !! char = None) chars →
  rule_glyphs m chars = Raise KeyError.
Proof.
  unfold rule_glyphs. rewrite force_py_map_seq.
  induction chars as [|c cs IH]; intros H; [by inversion H|].
  cbn [map_result].
  destruct (name_id m c) as [gid|e] eqn:E.
  - cbn [mbind result_bind mret result_ret].
    inversion H as [?? Hc|?? Hc]; subst.
    + unfold name_id in E. by rewrite Hc in E.
    + by rewrite IH.
  - unfold name_id in E. destruct (m !! c); by inversion E.
Qed.

(** X22. A rule without any component, or with a component name that
    is not in the map, makes [write_ligas] raise while the forest is
    built: nothing is written, not even the root. *)
Theorem write_ligas_rejects_before_writing (ligas : list (list string * Z))
    (m : gmap string Z) :
  Exists (fun rule => rule.1 = [] ∨ Exists (fun char => m !! char = None) rule.1)
         ligas →
  out (write_ligas ligas m) = []
  ∧ is_ok (res (write_ligas ligas m)) = false.
Proof.
  intros Hbad.
  assert (forallb (rule_ok m) ligas = false) as Hf.
  { induction Hbad as [[chars l] ligas Hr|r ligas _ IH]; cbn [forallb].
    - apply andb_false_intro1. unfold rule_ok. cbn [fst] in *.
      destruct Hr as [->|Hr]; [done|]. by rewrite rule_glyphs_missing.
    - by rewrite IH, andb_false_r. }
  pose proof (build_forest_fold m ligas []) as H. cbv zeta in H.
  rewrite Hf in H. unfold write_ligas, build_forest.
  destruct (for_fold _ ligas []) as [f|e]; [done|]. done.
Qed.

Lemma write_ligas_rejects_before_writing_witness :
  out (write_ligas [(["A"; "B"], 10); (["A"; "Q"], 11)]%string example_ids) = []
  ∧ is_ok (res (write_ligas [(["A"; "B"], 10); (["A"; "Q"], 11)]%string
                            example_ids)) = false.
Proof.
  apply (write_ligas_rejects_before_writing
           [(["A"; "B"], 10); (["A"; "Q"], 11)]%string example_ids).
  right. left. right. right. left. reflexivity.
Defined.

Lemma build_forest_ok ligas m f :
  build_forest ligas m = Ok f →
  f = foldl (add_rule m) [] ligas ∧ forallb (rule_ok m) ligas = true.
Proof.
  intros H. pose proof (build_forest_fold m ligas []) as H'. cbv zeta in H'.
  unfold build_forest in H. rewrite H in H'.
  destruct (forallb (rule_ok m) ligas); [|done].
  by injection H' as <-.
Qed.

(** X23. In the forest that [write_ligas] writes, the children of the
    root and of every node are in strictly ascending order of glyph id:
    no two children of a node have the same glyph id. *)
Theorem written_forest_is_sorted (ligas : list (list string * Z))
    (m : gmap string Z) (forest : list node) :
  build_forest ligas m = Ok forest →
  children_sorted (Node 0 (Int 0) (-1) (sort_children forest)).
Proof.
  intros [-> _]%build_forest_ok.
  destruct (foldl_add_rule_distinct m ligas [])
    as [Hd1 Hd2]; [apply NoDup_nil_2|constructor|].
  destruct (sort_children_sorted _ Hd1 Hd2) as [Hs1 Hs2].
  by constructor.
Qed.

Lemma written_forest_is_sorted_witness :
  ∃ forest,
    build_forest [(["C"; "A"], 10); (["B"], 11); (["A"; "C"], 12);
                  (["A"; "B"], 13)]%string example_ids = Ok forest
    ∧ children_sorted (Node 0 (Int 0) (-1) (sort_children forest)).
Proof.
  eexists. split; [vm_compute; reflexivity|].
  apply (written_forest_is_sorted
           [(["C"; "A"], 10); (["B"], 11); (["A"; "C"], 12);
            (["A"; "B"], 13)]%string example_ids).
  vm_compute. reflexivity.
Defined.

(** X24. The last rule wins: in the forest built from a list of rules,
    the ligature written for the glyph sequence of the last rule is the
    ligature of that rule, whatever the rules before it say. *)
Theorem last_rule_wins (ligas : list (list string * Z)) (chars : list string)
    (l : Z) (m : gmap string Z) (forest : list node) :
  build_forest (ligas ++ [(chars, l)]) m = Ok forest →
  ∃ p, rule_path m (chars, l) = Some p
       ∧ liga_at p (sort_children forest) = Some l.
Proof.
  intros [-> Hok]%build_forest_ok.
  rewrite forallb_app in Hok. apply andb_true_iff in Hok as [_ Hok].
  cbn [forallb] in Hok. rewrite andb_true_r in Hok.
  unfold rule_ok in Hok. cbn [fst] in Hok.
  destruct (rule_glyphs m chars) as [[|[g c] rest]|] eqn:E; try done.
  exists (g :: rest.*1). split.
  - unfold rule_path. cbn [fst]. by rewrite E.
  - rewrite liga_at_sort_children, foldl_app. cbn [foldl].
    rewrite liga_at_add_rule. unfold rule_path. cbn [fst snd]. rewrite E.
    rewrite fmap_cons. cbn [fst]. unfold liga_after. by rewrite decide_True.
Qed.

Lemma last_rule_wins_witness :
  ∃ forest p,
    build_forest ([(["A"%string], 10)] ++ [(["A"%string], 11)]) example_ids
    = Ok forest
    ∧ rule_path example_ids (["A"]%string, 11) = Some p
    ∧ liga_at p (sort_children forest) = Some 11.
Proof.
  eexists.
  destruct (last_rule_wins [(["A"]%string, 10)] ["A"]%string 11 example_ids
              _ eq_refl) as (p & H1 & H2).
  exists p. split; [reflexivity|]. done.
Defined.

(** ** The glyph encoders *)

Lemma for_each_all_ok {A} (body : A → W unit) (enc : A → list Z) xs :
  (∀ a, a ∈ xs → body a = mkW (Ok tt) (enc a)) →
  for_each body xs = mkW (Ok tt) (xs ≫= enc).
Proof.
  induction xs as [|x xs IH]; intros H; [done|].
  cbn [for_each]. rewrite (H x) by left.
  rewrite IH by (intros a Ha; apply H; by right).
  by rewrite bind_mkW_ok.
Qed.

Lemma write_packed_ok lo hi n v :
  lo ≤ v ≤ hi →
  write_packed (pack_int lo hi n) v = mkW (Ok tt) (be_octets n v).
Proof. intros H. unfold write_packed. by rewrite pack_int_ok. Qed.

Lemma write_H_ok v :
  0 ≤ v ≤ 65535 → write_packed pack_H v = mkW (Ok tt) (be_octets 2 v).
Proof. apply write_packed_ok. Qed.

Lemma write_h_ok v :
  -32768 ≤ v ≤ 32767 → write_packed pack_h v = mkW (Ok tt) (be_octets 2 v).
Proof. apply write_packed_ok. Qed.

Lemma write_cmd_ok t :
  wf_cmd t → operands_fit t →
  (bs ← lift (match t !! 0%nat with
              | None => Raise IndexError
              | Some (Int _) => Raise TypeError
              | Some (Str x) => b ← bytes_ascii x; pack_c b
              end);
   f_write bs;;
   for_each (fun param => match param with
                          | Int n => write_packed pack_h n
                          | Str _ => lift (Raise StructError)
                          end) (drop 1 t))
  = mkW (Ok tt) (encode_cmd t).
Proof.
  intros (x & args & -> & Hne & _) Hfit.
  unfold operands_fit in Hfit. rewrite skipn_cons, drop_0 in *.
  cbn [lookup list_lookup encode_cmd].
  assert (for_each (fun param => match param with
                                 | Int n => write_packed pack_h n
                                 | Str _ => lift (Raise StructError)
                                 end) (Int <$> args)
          = mkW (Ok tt) ((Int <$> args) ≫= fun a => match a with
                                                     | Int n => be_octets 2 n
                                                     | Str _ => []
                                                     end)) as ->.
  { apply for_each_all_ok. intros a Ha.
    rewrite Forall_forall in Hfit. specialize (Hfit a Ha).
    destruct a as [s|n]; [by apply list_elem_of_fmap in Ha as (? & ? & ?)|].
    by apply write_h_ok. }
  apply known_opcode in Hne. simpl in Hne.
  repeat (destruct Hne as [<-|Hne]; [reflexivity|]). done.
Qed.

(** X25. A path whose commands are those of the parser, with operands
    that fit 16 bits, is written in full: the number of commands on
    two octets and, for each command in order, one octet for the
    opcode and two for each operand. *)
Theorem write_path_writes_every_command (p : list (list pyval)) :
  Z.of_nat (length p) ≤ 65535 →
  Forall wf_cmd p → Forall operands_fit p →
  write_path (Some p)
  = mkW (Ok tt) (be_octets 2 (Z.of_nat (length p)) ++ (p ≫= encode_cmd)).
Proof.
  intros Hlen Hwf Hfit. unfold write_path.
  rewrite write_H_ok, bind_mkW_ok by lia. cbn [res out].
  rewrite (for_each_all_ok _ encode_cmd); [done|].
  intros t Ht. rewrite Forall_forall in Hwf, Hfit.
  by apply write_cmd_ok; [apply Hwf|apply Hfit].
Qed.

Lemma write_path_writes_every_command_witness :
  write_path (Some [[Str "M"; Int 10; Int (-20)]; [Str "Z"]])
  = mkW (Ok tt) (be_octets 2 2
                 ++ ([[Str "M"; Int 10; Int (-20)]; [Str "Z"]] ≫= encode_cmd)).
Proof.
  apply (write_path_writes_every_command
           [[Str "M"; Int 10; Int (-20)]; [Str "Z"]]).
  - simpl. lia.
  - repeat constructor.
    + by exists "M"%string, [10; -20].
    + by exists "Z"%string, [].
  - repeat constructor; lia.
Defined.

(** X26. [write_variants] writes the number of variants and then the
    glyph id of each, in the order given (nothing is sorted), when
    every name is in the map with an id that fits 16 bits; without
    variants it writes the count 0. *)
Theorem write_variants_keeps_order (m : gmap string Z)
    (variants : list string) :
  Z.of_nat (length variants) ≤ 65535 →
  Forall (fun v => ∃ gid, m !! v = Some gid ∧ 0 ≤ gid ≤ 65535) variants →
  write_variants m variants
  = mkW (Ok tt)
        (be_octets 2 (Z.of_nat (length variants))
         ++ (variants ≫= fun v => be_octets 2 (default 0 (m !! v)))).
Proof.
  intros Hlen Hall. unfold write_variants.
  destruct variants as [|v vs]; [reflexivity|].
  rewrite write_H_ok, bind_mkW_ok by lia. cbn [res out].
  destruct (Z.of_nat (length (v :: vs)) =? 0) eqn:E;
    [apply Z.eqb_eq in E; simpl in E; lia|].
  rewrite (for_each_all_ok _
    (fun v => be_octets 2 (default 0 (m !! v)))); [done|].
  intros a Ha. rewrite Forall_forall in Hall.
  destruct (Hall a Ha) as (gid & Hgid & Hrange).
  unfold name_id. rewrite Hgid. cbn [default].
  unfold lift. rewrite bind_mkW_ok. cbn [res out app].
  by rewrite write_H_ok.
Qed.

Lemma write_variants_keeps_order_witness :
  write_variants example_ids ["C"; "A"]%string
  = mkW (Ok tt) [0; 2; 0; 3; 0; 1].
Proof.
  apply (write_variants_keeps_order example_ids ["C"; "A"]%string).
  - simpl. lia.
  - repeat constructor.
    + exists 3. split; [reflexivity|lia].
    + exists 1. split; [reflexivity|lia].
Defined.

(** ** The header and the command line *)

(** X27. When the em size, the truncated x-height, the ascent and the
    descent fit 16 bits unsigned, the output starts with a header of
    15 octets: the seven octets of the magic, the versions and the math
    flag, then these four values on two octets each. *)
Theorem header_is_fifteen_octets (font : font_data)
    (is_math_font have_glyph_path : bool) :
  0 ≤ em font ≤ 65535 → 0 ≤ int_of (xheight font) ≤ 65535 →
  0 ≤ ascent font ≤ 65535 → 0 ≤ descent font ≤ 65535 →
  ∃ rest,
    out (parse_otf font is_math_font have_glyph_path)
    = [99; 108; 109; 0; 2; if have_glyph_path then 2 else 1;
       if is_math_font then 1 else 0]
      ++ be_octets 2 (em font) ++ be_octets 2 (int_of (xheight font))
      ++ be_octets 2 (ascent font) ++ be_octets 2 (descent font) ++ rest.
Proof.
  intros H1 H2 H3 H4. unfold parse_otf.
  replace (lift (b ← bytes_ascii "c"; pack_c b)) with (mkW (Ok [99]) [])
    by reflexivity.
  replace (lift (b ← bytes_ascii "l"; pack_c b)) with (mkW (Ok [108]) [])
    by reflexivity.
  replace (lift (b ← bytes_ascii "m"; pack_c b)) with (mkW (Ok [109]) [])
    by reflexivity.
  replace (write_packed pack_H 2) with (mkW (Ok tt) [0; 2]) by reflexivity.
  replace (write_packed pack_B (if have_glyph_path then 2 else 1))
    with (mkW (Ok tt) [if have_glyph_path then 2 else 1])
    by (by destruct have_glyph_path).
  rewrite (write_H_ok (em font)), (write_H_ok (int_of (xheight font))),
    (write_H_ok (ascent font)), (write_H_ok (descent font)) by done.
  unfold f_write, pack_bool.
  repeat (rewrite out_bind_ok; cbv beta).
  eexists. cbn [app]. reflexivity.
Qed.

Lemma header_is_fifteen_octets_witness :
  ∃ data rest,
    parse_otf_read (example_ff_font None) false false = Ok data
    ∧ out (parse_otf data false false)
      = [99; 108; 109; 0; 2; 1; 0] ++ be_octets 2 1000 ++ be_octets 2 450
        ++ be_octets 2 800 ++ be_octets 2 200 ++ rest.
Proof.
  destruct (parse_otf_read (example_ff_font None) false false)
    as [data|] eqn:E; [|by vm_compute in E].
  assert (em data = 1000 ∧ xheight data = 450%Q ∧ ascent data = 800
          ∧ descent data = 200) as (He & Hx & Ha & Hd).
  { vm_compute in E. by injection E as <-. }
  destruct (header_is_fifteen_octets data false false) as [rest Hrest].
  - rewrite He. lia.
  - rewrite Hx. vm_compute. split; discriminate.
  - rewrite Ha. lia.
  - rewrite Hd. lia.
  - exists data, rest. split; [done|].
    by rewrite He, Hx, Ha, Hd in Hrest.
Defined.

(** X28. An em size that does not fit 16 bits unsigned stops the
    conversion right after the first seven octets: they stay in the
    output file, [struct.pack] raises, and nothing else is written. *)
Theorem em_out_of_range_leaves_seven_octets (font : font_data)
    (is_math_font have_glyph_path : bool) :
  ¬ (0 ≤ em font ≤ 65535) →
  parse_otf font is_math_font have_glyph_path
  = mkW (Raise StructError)
        [99; 108; 109; 0; 2; if have_glyph_path then 2 else 1;
         if is_math_font then 1 else 0].
Proof.
  intros Hem. unfold parse_otf.
  replace (lift (b ← bytes_ascii "c"; pack_c b)) with (mkW (Ok [99]) [])
    by reflexivity.
  replace (lift (b ← bytes_ascii "l"; pack_c b)) with (mkW (Ok [108]) [])
    by reflexivity.
  replace (lift (b ← bytes_ascii "m"; pack_c b)) with (mkW (Ok [109]) [])
    by reflexivity.
  replace (write_packed pack_H 2) with (mkW (Ok tt) [0; 2]) by reflexivity.
  replace (write_packed pack_B (if have_glyph_path then 2 else 1))
    with (mkW (Ok tt) [if have_glyph_path then 2 else 1])
    by (by destruct have_glyph_path).
  assert (write_packed pack_H (em font) = mkW (Raise StructError) []) as ->.
  { unfold write_packed, pack_H, pack_int.
    replace ((0 <=? em font) && (em font <=? 65535)) with false; [done|].
    symmetry. apply andb_false_iff.
    destruct (Z.leb_spec 0 (em font)), (Z.leb_spec (em font) 65535); auto; lia. }
  unfold f_write, pack_bool.
  rewrite bind_mkW_raise.
  repeat (rewrite bind_mkW_ok; cbv beta; cbn [res out app]).
  reflexivity.
Qed.

Lemma em_out_of_range_leaves_seven_octets_witness :
  parse_otf {| math_consts := []; kern_class_tables := PyIter [];
               unicode_glyph_map := []; glyph_name_id_map := ∅;
               glyphs := []; ligas := []; em := 70000; xheight := 0;
               ascent := 0; descent := 0 |} false true
  = mkW (Raise StructError) [99; 108; 109; 0; 2; 2; 0].
Proof.
  apply (em_out_of_range_leaves_seven_octets
           {| math_consts := []; kern_class_tables := PyIter [];
              unicode_glyph_map := []; glyph_name_id_map := ∅;
              glyphs := []; ligas := []; em := 70000; xheight := 0;
              ascent := 0; descent := 0 |} false true).
  simpl. lia.
Defined.

(** X29. With the script name and at least four arguments, [main]
    calls [parse_otf] with the first four: the font path, the two
    flags, each true for the exact text [true] and false for anything
    else, and the output path. Further arguments are ignored. *)
Theorem main_converts_with_four_arguments (script a1 a2 a3 a4 : string)
    (more : list string) :
  main (script :: a1 :: a2 :: a3 :: a4 :: more)
  = Ok (Convert a1 (bool_decide (a2 = "true"%string))
                (bool_decide (a3 = "true"%string)) a4).
Proof.
  unfold main.
  replace (Z.of_nat (length (script :: a1 :: a2 :: a3 :: a4 :: more)) <? 4)
    with false by (symmetry; apply Z.ltb_ge; simpl length; lia).
  cbn. do 2 f_equal.
  - destruct (String.eqb_spec a2 "true").
    + by rewrite bool_decide_eq_true_2.
    + by rewrite bool_decide_eq_false_2.
  - destruct (String.eqb_spec a3 "true").
    + by rewrite bool_decide_eq_true_2.
    + by rewrite bool_decide_eq_false_2.
Qed.

(** X30. With fewer than three arguments after the script name, [main]
    prints the usage text and converts nothing. *)
Theorem main_prints_usage (argv : list string) :
  (length argv < 4)%nat → main argv = Ok PrintUsage.
Proof.
  intros H. unfold main.
  by replace (Z.of_nat (length argv) <? 4) with true
    by (symmetry; apply Z.ltb_lt; lia).
Qed.

Lemma main_prints_usage_witness :
  main ["otf2clm"; "font.otf"]%string = Ok PrintUsage.
Proof.
  apply (main_prints_usage ["otf2clm"; "font.otf"]%string). simpl. lia.
Defined.
